(** * srclib [src api]: the [describe] and [list] commands

    A shallow embedding of [src/api_cmds.go]: the build orchestration
    ([ensureBuild]), the source-unit lookup ([getSourceUnitsWithFile]) and
    the two query commands ([APIListCmd.Execute], [APIDescribeCmd.Execute]).

    Conventions of the embedding.
    - Go strings are [string]; Go [int] offsets are [Z] (they are only
      compared, never computed with).
    - A Go [error] value is an [error]; a function returning [(T, error)]
      returns [result T]; a function returning only [error] returns
      [option error] ([None] is Go's [nil]).
    - The file system behind the build store, standard output and the calls
      to external collaborators form the [World], which is passed explicitly.
    - Records decoded from a graph artifact live behind pointers in Go; the
      decoded graphs are kept in a memory [list Output] and the local
      variable [ref] of [describe] is an address into it.
    - Packages that are not part of [api_cmds.go] (path/filepath, the build
      store, the configure and make commands, the remote API client) are
      fields of an environment record [Env].
    - The two goroutines of [describe] are given an interleaving semantics
      of their own ([conc_step]); the sequential embedding of the command
      uses the state of [resp] that every interleaving ends in.
    - [log.Printf] diagnostics under [GlobalOpt.Verbose] go to standard error
      only and are left out, as are the deferred [f.Close()] calls.
    - JSON [null] in place of a unit, or of an element of [g.Refs] or
      [g.Defs], is not modelled: decoded pointers are never nil.

    The module [Fixture] is a concrete repository on which the commands are
    run; the statements come after it. *)

From Stdlib Require Import ZArith Lia Ascii.
From stdpp Require Import base tactics option list strings relations.

Set Default Proof Using "Type".

(** ** Errors and results *)

(** A Go [error].  [ErrNotExist] stands for the errors that [os.IsNotExist]
    recognises; every other error, among them those built by [errors.New]
    and [fmt.Errorf], is an [errorString]. *)
Inductive error : Type :=
| errorString (msg : string)
| ErrNotExist (msg : string).

Definition Error (e : error) : string :=
  match e with
  | errorString msg => msg
  | ErrNotExist msg => msg
  end.

(** [os.IsNotExist(err)] on a possibly nil error. *)
Definition IsNotExist (err : option error) : bool :=
  match err with
  | Some (ErrNotExist _) => true
  | _ => false
  end.

(** [fmt.Errorf("%s: %s", file, err)]. *)
Definition Errorf (file : string) (err : error) : error :=
  errorString (file +:+ ": " +:+ Error err).

Inductive result (A : Type) : Type :=
| Ok (a : A)
| Fail (e : error).
Arguments Ok {A} a.
Arguments Fail {A} e.

#[global] Instance result_ret : MRet result := fun A a => Ok a.
#[global] Instance result_bind : MBind result := fun A B f m =>
  match m with
  | Ok a => f a
  | Fail e => Fail e
  end.

(** [if err := dec.Decode(&v); err != nil { return fmt.Errorf("%s: %s", file, err) }] *)
Definition orErrorf {A : Type} (file : string) (m : result A) : result A :=
  match m with
  | Ok a => Ok a
  | Fail e => Fail (Errorf file e)
  end.

Definition isOk {A : Type} (m : result A) : bool :=
  match m with Ok _ => true | Fail _ => false end.

(** ** Data model *)

(** [unit.SourceUnit]: the fields the commands read. *)
Record SourceUnit : Type := mkSourceUnit {
  Name : string;
  Type_ : string;
  Files : list string;
}.

(** [graph.Ref] *)
Record Ref : Type := mkRef {
  DefRepo : string;
  DefUnitType : string;
  DefUnit : string;
  DefPath : string;
  Ref_File : string;
  Start : Z;
  End_ : Z;
}.

(** [graph.Def], with its language-specific payload kept opaque. *)
Record Def : Type := mkDef {
  Def_Path : string;
  Def_File : string;
  Def_Data : string;
}.

(** [graph.Doc] *)
Record Doc : Type := mkDoc {
  Doc_Path : string;
  Doc_Data : string;
}.

(** [grapher.Output]: the graph artifact of one source unit. *)
Record Output : Type := mkOutput {
  Defs : list Def;
  Refs : list Ref;
  Docs : list Doc;
}.

(** The graphs decoded so far by a command, in decoding order. *)
Abbreviation Memory := (list Output).

(** [sourcegraph.Def]: a [graph.Def] (embedded) with its documentation. *)
Record sgDef : Type := mksgDef {
  sg_Def : Def;
  DocHTML : string;
}.

(** [sourcegraph.Example], opaque. *)
Record Example : Type := mkExample {
  Example_Src : string;
}.

(** [sourcegraph.DefSpec]: the four-part locator of a definition. *)
Record DefSpec : Type := mkDefSpec {
  spec_Repo : string;
  spec_UnitType : string;
  spec_Unit : string;
  spec_Path : string;
}.

Record DefGetOptions : Type := mkDefGetOptions {
  opt_Doc : bool;
}.

Record DefListExamplesOptions : Type := mkDefListExamplesOptions {
  Formatted : bool;
  PerPage : Z;
}.

(** [Repo]: the repository handle built by [OpenRepo]. *)
Record Repo : Type := mkRepo {
  RootDir : string;
  URI : string;
  CommitID : string;
}.

#[global] Instance SourceUnit_eq_dec : EqDecision SourceUnit.
Proof. solve_decision. Defined.
#[global] Instance Ref_eq_dec : EqDecision Ref.
Proof. solve_decision. Defined.
#[global] Instance Def_eq_dec : EqDecision Def.
Proof. solve_decision. Defined.
#[global] Instance Doc_eq_dec : EqDecision Doc.
Proof. solve_decision. Defined.
#[global] Instance Output_eq_dec : EqDecision Output.
Proof. solve_decision. Defined.

(** ** The build store and the file system behind it *)

(** A stored file is characterised by what the two JSON decoders used by
    the commands make of its bytes. *)
Record File : Type := mkFile {
  decodeSourceUnit : result SourceUnit;
  decodeOutput : result Output;
}.

(** The part of the file system the commands observe through the store. *)
Record FileSystem : Type := mkFileSystem {
  fs_Stat : string -> option error;
  fs_Walk : string -> list string;
  fs_Open : string -> result File;
}.

(** [buildstore.RepositoryStore]: the naming scheme of the artifacts. *)
Record RepositoryStore : Type := mkRepositoryStore {
  CommitPath : string -> string;
  FilePath : string -> string -> string;
}.

(** [config.Options] and the options of the toolchain execution. *)
Record Options : Type := mkOptions {
  opt_Repo : string;
  Subdir : string;
}.

Record ToolchainExecOpt : Type := mkToolchainExecOpt {
  ExeMethods : string;
}.

Record ConfigCmd : Type := mkConfigCmd {
  cfg_Options : Options;
  cfg_ToolchainExecOpt : ToolchainExecOpt;
}.

Record MakeCmd : Type := mkMakeCmd {
  mk_Options : Options;
  mk_ToolchainExecOpt : ToolchainExecOpt;
}.

(** What [describe] encodes on standard output. *)
Record Resp : Type := mkResp {
  resp_Def : option sgDef;
  resp_Examples : list Example;
}.

(** The goroutines started by [describe]. *)
Inductive Task : Type :=
| TaskGet (spec : DefSpec) (opt : DefGetOptions)
| TaskListExamples (spec : DefSpec) (opt : DefListExamplesOptions).

(** Effects visible outside the process, in program order. *)
Inductive Event : Type :=
| EvChdir (dir : string)
| EvConfigure (c : ConfigCmd)
| EvMake (m : MakeCmd)
| EvGo (t : Task)
| EvPrintln (line : string)
| EvEncodeRefs (refs : list Ref)
| EvEncodeResp (resp : Resp).

Record World : Type := mkWorld {
  fs : FileSystem;
  trace : list Event;
}.

Definition emit (ev : Event) (w : World) : World :=
  {| fs := fs w; trace := trace w ++ [ev] |}.

(** The collaborators of [api_cmds.go]. *)
Record Env : Type := mkEnv {
  (* path/filepath *)
  filepath_Clean : string -> string;
  filepath_Dir : string -> string;
  filepath_Rel : string -> string -> result string;
  filepath_Join : string -> string -> string;
  (* os *)
  os_Chdir : string -> option error;
  (* package src *)
  OpenRepo : string -> result Repo;
  ConfigCmd_Execute : ConfigCmd -> FileSystem -> option error * FileSystem;
  MakeCmd_Execute : MakeCmd -> FileSystem -> option error * FileSystem;
  (* buildstore, plan *)
  NewRepositoryStore : string -> result RepositoryStore;
  DataTypeSuffix_SourceUnit : string;
  SourceUnitDataFilename : string -> SourceUnit -> string;
  (* apiclient.Defs *)
  Defs_Get : DefSpec -> DefGetOptions -> option sgDef * option error;
  Defs_ListExamples :
    DefSpec -> DefListExamplesOptions -> list Example * option error;
  (* json.NewEncoder(os.Stdout).Encode *)
  Encode_Refs : list Ref -> option error;
  Encode_Resp : Resp -> option error;
}.

(** [strings.HasSuffix] *)
Fixpoint list_HasPrefix (s prefix : list Ascii.ascii) : bool :=
  match prefix, s with
  | [], _ => true
  | p :: prefix', c :: s' => bool_decide (p = c) && list_HasPrefix s' prefix'
  | _ :: _, [] => false
  end.

Definition HasSuffix (s suffix : string) : bool :=
  list_HasPrefix (reverse (String.list_ascii_of_string s))
                 (reverse (String.list_ascii_of_string suffix)).

Section Commands.

Context (E : Env).

(** ** [ensureBuild] (api_cmds.go, lines 71-103) *)

Definition runConfigure (c : ConfigCmd) (w : World) : option error * World :=
  let '(err, fs') := ConfigCmd_Execute E c (fs w) in
  (err, {| fs := fs'; trace := trace w ++ [EvConfigure c] |}).

Definition runMake (m : MakeCmd) (w : World) : option error * World :=
  let '(err, fs') := MakeCmd_Execute E m (fs w) in
  (err, {| fs := fs'; trace := trace w ++ [EvMake m] |}).

Definition ensureBuild (buildStore : RepositoryStore) (repo : Repo)
    (w : World) : option error * World :=
  let configOpt := {| opt_Repo := URI repo; Subdir := "." |} in
  let toolchainExecOpt := {| ExeMethods := "program" |} in
  (* Config repository if not yet built. *)
  let '(err, w1) :=
    if IsNotExist (fs_Stat (fs w) (CommitPath buildStore (CommitID repo)))
    then runConfigure {| cfg_Options := configOpt;
                         cfg_ToolchainExecOpt := toolchainExecOpt |} w
    else (None, w) in
  match err with
  | Some e => (Some e, w1)
  | None =>
      (* Always re-make. *)
      runMake {| mk_Options := configOpt;
                 mk_ToolchainExecOpt := toolchainExecOpt |} w1
  end.

(** ** [getSourceUnitsWithFile] (api_cmds.go, lines 105-143) *)

(** The walk that collects the source unit definition files. *)
Fixpoint collectUnitFiles (unitSuffix : string) (paths : list string)
    (unitFiles : list string) : list string :=
  match paths with
  | [] => unitFiles
  | path :: rest =>
      if HasSuffix path unitSuffix
      then collectUnitFiles unitSuffix rest (unitFiles ++ [path])
      else collectUnitFiles unitSuffix rest unitFiles
  end.

(** The inner loop over [u.Files]: append [u] at the first file that is
    the query file, and [break]. *)
Fixpoint appendIfContains (u : SourceUnit) (files : list string)
    (filename : string) (units : list SourceUnit) : list SourceUnit :=
  match files with
  | [] => units
  | f2 :: rest =>
      if bool_decide (filepath_Clean E f2 = filename)
      then units ++ [u]
      else appendIfContains u rest filename units
  end.

(** The outer loop over the unit files. *)
Fixpoint unitsLoop (fsys : FileSystem) (unitFiles : list string)
    (filename : string) (units : list SourceUnit)
    : result (list SourceUnit) :=
  match unitFiles with
  | [] => Ok units
  | unitFile :: rest =>
      f ← fs_Open fsys unitFile;
      u ← orErrorf unitFile (decodeSourceUnit f);
      unitsLoop fsys rest filename (appendIfContains u (Files u) filename units)
  end.

Definition getSourceUnitsWithFile (fsys : FileSystem)
    (buildStore : RepositoryStore) (repo : Repo) (filename : string)
    : result (list SourceUnit) :=
  let filename := filepath_Clean E filename in
  (* Find all source unit definition files. *)
  let unitSuffix := DataTypeSuffix_SourceUnit E in
  let unitFiles :=
    collectUnitFiles unitSuffix
      (fs_Walk fsys (CommitPath buildStore (CommitID repo))) [] in
  (* Find which source units the file belongs to. *)
  unitsLoop fsys unitFiles filename [].


(** ** The common prologue of the two commands
    (api_cmds.go, lines 146-174 and 215-243, identical up to the receiver) *)

Definition graphFileOf (buildStore : RepositoryStore) (repo : Repo)
    (u : SourceUnit) : string :=
  FilePath buildStore (CommitID repo) (SourceUnitDataFilename E "graph" u).

Definition openAndBuild (file : string) (w : World)
    : result (string * Repo * RepositoryStore * list SourceUnit) * World :=
  let file := filepath_Clean E file in
  match OpenRepo E (filepath_Dir E file) with
  | Fail err => (Fail err, w)
  | Ok repo =>
  match filepath_Rel E (RootDir repo) file with
  | Fail err => (Fail err, w)
  | Ok file =>
  let w := emit (EvChdir (RootDir repo)) w in
  match os_Chdir E (RootDir repo) with
  | Some err => (Fail err, w)
  | None =>
  match NewRepositoryStore E (RootDir repo) with
  | Fail err => (Fail err, w)
  | Ok buildStore =>
  match ensureBuild buildStore repo w with
  | (Some err, w) => (Fail err, w)
  | (None, w) =>
  match getSourceUnitsWithFile (fs w) buildStore repo file with
  | Fail err => (Fail err, w)
  | Ok units => (Ok (file, repo, buildStore, units), w)
  end end end end end end.

(** ** [APIListCmd.Execute] (api_cmds.go, lines 145-212) *)

Record APIListCmd : Type := mkAPIListCmd {
  list_File : string;
}.

(** The inner loop over [g.Refs]. *)
Fixpoint collectRefs (file : string) (grefs : list Ref) (refs : list Ref)
    : list Ref :=
  match grefs with
  | [] => refs
  | ref :: rest =>
      if bool_decide (file = Ref_File ref)
      then collectRefs file rest (refs ++ [ref])
      else collectRefs file rest refs
  end.

(** The loop over the units. *)
Fixpoint listLoop (fsys : FileSystem) (buildStore : RepositoryStore)
    (repo : Repo) (file : string) (units : list SourceUnit)
    (refs : list Ref) : result (list Ref) :=
  match units with
  | [] => Ok refs
  | u :: rest =>
      let graphFile := graphFileOf buildStore repo u in
      f ← fs_Open fsys graphFile;
      g ← orErrorf graphFile (decodeOutput f);
      listLoop fsys buildStore repo file rest (collectRefs file (Refs g) refs)
  end.

Definition APIListCmd_Execute (c : APIListCmd) (w : World)
    : option error * World :=
  match openAndBuild (list_File c) w with
  | (Fail err, w) => (Some err, w)
  | (Ok (file, repo, buildStore, units), w) =>
      (* Find the ref(s) at the character position. *)
      match listLoop (fs w) buildStore repo file units [] with
      | Fail err => (Some err, w)
      | Ok refs => (Encode_Refs E refs, emit (EvEncodeRefs refs) w)
      end
  end.

(** ** [APIDescribeCmd.Execute] (api_cmds.go, lines 214-381) *)

Record APIDescribeCmd : Type := mkAPIDescribeCmd {
  File_ : string;
  StartByte : Z;
  NoExamples : bool;
}.

(** *** Decoded graphs in memory

    [g.Refs] is a slice of pointers: the records of a decoded graph are
    shared between the graph and whoever holds one of its elements.  The
    memory is the list of the graphs decoded so far, in decoding order; an
    address names one ref of one of them. *)
Record Addr : Type := mkAddr {
  graphIx : nat;
  refIx : nat;
}.

Definition withRefs (g : Output) (refs : list Ref) : Output :=
  {| Defs := Defs g; Refs := refs; Docs := Docs g |}.

(** Read and write through a [*graph.Ref]. *)
Definition getRef (mem : Memory) (p : Addr) : option Ref :=
  g ← mem !! graphIx p; Refs g !! refIx p.

Definition setRef (mem : Memory) (p : Addr) (f : Ref -> Ref) : Memory :=
  alter (fun g => withRefs g (alter f (refIx p) (Refs g))) (graphIx p) mem.

(** Dereferencing the local variable [ref].  An address outside the memory
    would be a nil dereference; the scan only returns addresses inside it. *)
Definition deref (mem : Memory) (p : Addr) : result Ref :=
  match getRef mem p with
  | Some r => Ok r
  | None =>
      Fail (errorString "invalid memory address or nil pointer dereference")
  end.

Definition withDefUnit (r : Ref) (v : string) : Ref :=
  {| DefRepo := DefRepo r; DefUnitType := DefUnitType r; DefUnit := v;
     DefPath := DefPath r; Ref_File := Ref_File r;
     Start := Start r; End_ := End_ r |}.

Definition withDefUnitType (r : Ref) (v : string) : Ref :=
  {| DefRepo := DefRepo r; DefUnitType := v; DefUnit := DefUnit r;
     DefPath := DefPath r; Ref_File := Ref_File r;
     Start := Start r; End_ := End_ r |}.

Definition withDefRepo (r : Ref) (v : string) : Ref :=
  {| DefRepo := v; DefUnitType := DefUnitType r; DefUnit := DefUnit r;
     DefPath := DefPath r; Ref_File := Ref_File r;
     Start := Start r; End_ := End_ r |}.

(** [if ref.DefUnit == "" { ref.DefUnit = u.Name }] and its two siblings. *)
Definition defaultDefUnit (u : SourceUnit) (r : Ref) : Ref :=
  if bool_decide (DefUnit r = "") then withDefUnit r (Name u) else r.

Definition defaultDefUnitType (u : SourceUnit) (r : Ref) : Ref :=
  if bool_decide (DefUnitType r = "") then withDefUnitType r (Type_ u) else r.

Definition defaultDefRepo (repo : Repo) (r : Ref) : Ref :=
  if bool_decide (DefRepo r = "") then withDefRepo r (URI repo) else r.

(** The condition of the scan, as written at line 272. *)
Definition covers (file : string) (startByte : Z) (ref2 : Ref) : bool :=
  bool_decide (file = Ref_File ref2)
  && (startByte >=? Start ref2)%Z && (startByte <=? End_ ref2)%Z.

(** The inner loop over [g.Refs], for the graph at index [k] of the memory,
    from its [i]-th ref on.  At the first covering ref it fills in the
    defining unit through the pointer and leaves both loops. *)
Fixpoint scanRefs (file : string) (startByte : Z) (u : SourceUnit)
    (k : nat) (grefs : list Ref) (i : nat) (mem : Memory)
    : option Addr * Memory :=
  match grefs with
  | [] => (None, mem)
  | ref2 :: rest =>
      if covers file startByte ref2
      then
        let ref := {| graphIx := k; refIx := i |} in
        let mem := setRef mem ref (defaultDefUnit u) in
        let mem := setRef mem ref (defaultDefUnitType u) in
        (Some ref, mem)
      else scanRefs file startByte u k rest (S i) mem
  end.

(** The outer loop ([OuterLoop]) over the units. *)
Fixpoint scanUnits (fsys : FileSystem) (buildStore : RepositoryStore)
    (repo : Repo) (file : string) (startByte : Z)
    (units : list SourceUnit) (mem : Memory)
    : result (option Addr) * Memory :=
  match units with
  | [] => (Ok None, mem)
  | u :: rest =>
      let graphFile := graphFileOf buildStore repo u in
      match fs_Open fsys graphFile with
      | Fail err => (Fail err, mem)
      | Ok f =>
      match decodeOutput f with
      | Fail err => (Fail (Errorf graphFile err), mem)
      | Ok g =>
          let k := length mem in
          let mem := mem ++ [g] in
          match scanRefs file startByte u k (Refs g) 0 mem with
          | (Some ref, mem) => (Ok (Some ref), mem)
          | (None, mem) =>
              scanUnits fsys buildStore repo file startByte rest mem
          end
      end end
  end.

(** *** Local resolution (lines 303-335) *)

(** The loop over [g.Defs]: the first def with the path, then [break]. *)
Fixpoint findDef (defs : list Def) (path : string) : option Def :=
  match defs with
  | [] => None
  | def2 :: rest =>
      if bool_decide (Def_Path def2 = path) then Some def2
      else findDef rest path
  end.

(** The loop over [g.Docs]: every doc with the path overwrites [DocHTML]. *)
Fixpoint docHTMLOf (docs : list Doc) (path : string) (html : string)
    : string :=
  match docs with
  | [] => html
  | doc :: rest =>
      docHTMLOf rest path
        (if bool_decide (Doc_Path doc = path) then Doc_Data doc else html)
  end.

Definition withFile (d : Def) (file : string) : Def :=
  {| Def_Path := Def_Path d; Def_File := file; Def_Data := Def_Data d |}.

Definition localDef (fsys : FileSystem) (buildStore : RepositoryStore)
    (repo : Repo) (r : Ref) (mem : Memory)
    : result (option sgDef) * Memory :=
  let graphFile :=
    graphFileOf buildStore repo
      {| Name := DefUnit r; Type_ := DefUnitType r; Files := [] |} in
  match fs_Open fsys graphFile with
  | Fail err => (Fail err, mem)
  | Ok f =>
  match decodeOutput f with
  | Fail err => (Fail (Errorf graphFile err), mem)
  | Ok g =>
      let mem := mem ++ [g] in
      match findDef (Defs g) (DefPath r) with
      | Some def2 =>
          (* resp.Def = &sourcegraph.Def{Def: *def2}: a copy of the record *)
          let html := docHTMLOf (Docs g) (DefPath r) "" in
          let def := withFile def2 (filepath_Join E (RootDir repo) (Def_File def2)) in
          (Ok (Some {| sg_Def := def; DocHTML := html |}), mem)
      | None => (Ok None, mem)
      end
  end end.

(** *** Remote resolution and examples (lines 337-375) *)

Definition specOf (r : Ref) : DefSpec :=
  {| spec_Repo := DefRepo r; spec_UnitType := DefUnitType r;
     spec_Unit := DefUnit r; spec_Path := DefPath r |}.

Definition getOpt : DefGetOptions := {| opt_Doc := true |}.

Definition examplesOpt : DefListExamplesOptions :=
  {| Formatted := true; PerPage := 4 |}.

(** The goroutines the command starts, in the order of the [go] statements. *)
Definition tasksOf (def : option sgDef) (noExamples : bool) (spec : DefSpec)
    : list Task :=
  (if def is None then [TaskGet spec getOpt] else [])
  ++ (if negb noExamples then [TaskListExamples spec examplesOpt] else []).

(** [resp] once [wg.Wait()] has returned: each started goroutine has
    assigned the first result of its call, whatever its error. *)
Definition joined (def : option sgDef) (noExamples : bool) (spec : DefSpec)
    : Resp :=
  {| resp_Def :=
       if def is None then fst (Defs_Get E spec getOpt) else def;
     resp_Examples :=
       if negb noExamples then fst (Defs_ListExamples E spec examplesOpt)
       else [] |}.

Definition emitAll (evs : list Event) (w : World) : World :=
  {| fs := fs w; trace := trace w ++ evs |}.

Definition APIDescribeCmd_Execute (c : APIDescribeCmd) (w : World)
    : option error * World * Memory :=
  match openAndBuild (File_ c) w with
  | (Fail err, w) => (Some err, w, [])
  | (Ok (file, repo, buildStore, units), w) =>
  (* Find the ref(s) at the character position. *)
  match scanUnits (fs w) buildStore repo file (StartByte c) units [] with
  | (Fail err, mem) => (Some err, w, mem)
  | (Ok None, mem) => (None, emit (EvPrintln "{}") w, mem)
  | (Ok (Some ref), mem) =>
  let mem := setRef mem ref (defaultDefRepo repo) in
  match deref mem ref with
  | Fail err => (Some err, w, mem)
  | Ok r =>
  (* Now find the def for this ref. *)
  let defInCurrentRepo := bool_decide (DefRepo r = URI repo) in
  match (if defInCurrentRepo then localDef (fs w) buildStore repo r mem
         else (Ok None, mem)) with
  | (Fail err, mem) => (Some err, w, mem)
  | (Ok def, mem) =>
  let spec := specOf r in
  let w := emitAll (EvGo <$> tasksOf def (NoExamples c) spec) w in
  let resp := joined def (NoExamples c) spec in
  (Encode_Resp E resp, emit (EvEncodeResp resp) w, mem)
  end end end end.

End Commands.

(** ** The two goroutines of [describe] (api_cmds.go, lines 344-375)

    The sequential embedding above uses [joined] for the state of [resp]
    after [wg.Wait()].  The interleaving semantics below is what justifies
    it: the main flow and the two goroutines are three threads over the
    shared [resp] and the wait group counter, and a step is a move of any
    one of them. *)

(** Where the main flow stands. *)
Inductive MainPc : Type :=
| AtGoGet         (* before [if resp.Def == nil { wg.Add(1); go ... }] *)
| AtGoExamples    (* before [if !c.NoExamples { wg.Add(1); go ... }] *)
| AtWait          (* blocked in [wg.Wait()] *)
| Joined.         (* [wg.Wait()] has returned *)

(** Where a goroutine stands. *)
Inductive TaskPc : Type :=
| NotStarted      (* its [go] statement has not been executed *)
| Running         (* started, its remote call has not returned *)
| Returned        (* result assigned to [resp], deferred [wg.Done()] pending *)
| Finished.       (* [wg.Done()] executed *)

Record Conc : Type := mkConc {
  pc : MainPc;
  wg : nat;
  getTask : TaskPc;
  exTask : TaskPc;
  resp : Resp;
}.

#[global] Instance MainPc_eq_dec : EqDecision MainPc.
Proof. solve_decision. Defined.
#[global] Instance TaskPc_eq_dec : EqDecision TaskPc.
Proof. solve_decision. Defined.

Section Goroutines.

Context (E : Env).
Context (noExamples : bool) (spec : DefSpec).

(** The state on reaching line 344, with [resp.Def] as local resolution
    left it. *)
Definition conc_init (def : option sgDef) : Conc :=
  {| pc := AtGoGet; wg := 0; getTask := NotStarted; exTask := NotStarted;
     resp := {| resp_Def := def; resp_Examples := [] |} |}.

(** The move of the main flow, if it has one. *)
Definition main_step (s : Conc) : option Conc :=
  match pc s with
  | AtGoGet =>
      if resp_Def (resp s) is None
      then Some {| pc := AtGoExamples; wg := S (wg s); getTask := Running;
                   exTask := exTask s; resp := resp s |}
      else Some {| pc := AtGoExamples; wg := wg s; getTask := getTask s;
                   exTask := exTask s; resp := resp s |}
  | AtGoExamples =>
      if negb noExamples
      then Some {| pc := AtWait; wg := S (wg s); getTask := getTask s;
                   exTask := Running; resp := resp s |}
      else Some {| pc := AtWait; wg := wg s; getTask := getTask s;
                   exTask := exTask s; resp := resp s |}
  | AtWait =>
      if bool_decide (wg s = 0)
      then Some {| pc := Joined; wg := wg s; getTask := getTask s;
                   exTask := exTask s; resp := resp s |}
      else None
  | Joined => None
  end.

(** The move of the goroutine that fetches the def. *)
Definition get_step (s : Conc) : option Conc :=
  match getTask s with
  | Running =>
      Some {| pc := pc s; wg := wg s; getTask := Returned; exTask := exTask s;
              resp := {| resp_Def := fst (Defs_Get E spec getOpt);
                         resp_Examples := resp_Examples (resp s) |} |}
  | Returned =>
      Some {| pc := pc s; wg := pred (wg s); getTask := Finished;
              exTask := exTask s; resp := resp s |}
  | NotStarted | Finished => None
  end.

(** The move of the goroutine that fetches the examples. *)
Definition ex_step (s : Conc) : option Conc :=
  match exTask s with
  | Running =>
      Some {| pc := pc s; wg := wg s; getTask := getTask s; exTask := Returned;
              resp := {| resp_Def := resp_Def (resp s);
                         resp_Examples :=
                           fst (Defs_ListExamples E spec examplesOpt) |} |}
  | Returned =>
      Some {| pc := pc s; wg := pred (wg s); getTask := getTask s;
              exTask := Finished; resp := resp s |}
  | NotStarted | Finished => None
  end.

(** One step of the program: any thread that can move may move. *)
Definition conc_step (s s' : Conc) : Prop :=
  main_step s = Some s' \/ get_step s = Some s' \/ ex_step s = Some s'.

Definition conc_reachable (def : option sgDef) (s : Conc) : Prop :=
  rtc conc_step (conc_init def) s.

(** A scheduler picks the thread that moves next. *)
Inductive Thread : Type := ThMain | ThGet | ThExamples.

Definition thread_step (t : Thread) (s : Conc) : option Conc :=
  match t with
  | ThMain => main_step s
  | ThGet => get_step s
  | ThExamples => ex_step s
  end.

(** Run a schedule; a thread that cannot move when picked is skipped. *)
Fixpoint conc_run (sched : list Thread) (s : Conc) : Conc :=
  match sched with
  | [] => s
  | t :: rest => conc_run rest (default s (thread_step t s))
  end.

(** Steps a thread still has to make; it bounds every execution. *)
Definition task_fuel (t : TaskPc) : nat :=
  match t with
  | NotStarted => 3 | Running => 2 | Returned => 1 | Finished => 0
  end.

Definition main_fuel (p : MainPc) : nat :=
  match p with
  | AtGoGet => 3 | AtGoExamples => 2 | AtWait => 1 | Joined => 0
  end.

Definition conc_fuel (s : Conc) : nat :=
  main_fuel (pc s) + task_fuel (getTask s) + task_fuel (exTask s).

(** Goroutines that have been started and have not yet called [wg.Done()]. *)
Definition pending (t : TaskPc) : nat :=
  match t with
  | Running | Returned => 1
  | NotStarted | Finished => 0
  end.

Definition assigned (t : TaskPc) : bool :=
  match t with
  | Returned | Finished => true
  | NotStarted | Running => false
  end.

(** The invariant of the three threads. *)
Record conc_inv (def : option sgDef) (s : Conc) : Prop := mkConcInv {
  inv_wg : wg s = pending (getTask s) + pending (exTask s);
  inv_get_started :
    getTask s <> NotStarted <-> (pc s <> AtGoGet /\ def = None);
  inv_ex_started :
    exTask s <> NotStarted <->
    (pc s <> AtGoGet /\ pc s <> AtGoExamples /\ noExamples = false);
  inv_joined : pc s = Joined -> wg s = 0;
  inv_def :
    resp_Def (resp s) =
      if assigned (getTask s) then fst (Defs_Get E spec getOpt) else def;
  inv_examples :
    resp_Examples (resp s) =
      if assigned (exTask s) then fst (Defs_ListExamples E spec examplesOpt)
      else [];
}.

End Goroutines.

(** ** Registration of the commands (api_cmds.go, lines 22-55)

    [init] registers [api] on the global [CLI] and [describe] and [list] on
    the command that this returns.  The commands of the parser are opaque
    handles; what [AddCommand] answers may depend on the registrations made
    before, so the parser is a function of that history.  [log.Fatal]
    ends the process. *)

(** A [*flags.Command]. *)
Record Command : Type := mkCommand {
  cmd_id : nat;
}.

(** The receivers handed to [AddCommand]: [&apiCmd], [&apiDescribeCmd] and
    [&apiListCmd]. *)
Inductive CommandData : Type :=
| apiCmd
| apiDescribeCmd
| apiListCmd.

(** One call [parent.AddCommand(command, short, long, data)]. *)
Record Registration : Type := mkRegistration {
  reg_parent : Command;
  reg_command : string;
  reg_short : string;
  reg_long : string;
  reg_data : CommandData;
}.

Record Parser : Type := mkParser {
  CLI : Command;
  AddCommand : list Registration -> Registration -> result Command;
}.

(** How [init] ends: it returns, or [log.Fatal] exits with the error. *)
Inductive InitOutcome : Type :=
| InitReturns
| InitFatal (err : error).

#[global] Instance Command_eq_dec : EqDecision Command.
Proof. solve_decision. Defined.
#[global] Instance CommandData_eq_dec : EqDecision CommandData.
Proof. solve_decision. Defined.
#[global] Instance Registration_eq_dec : EqDecision Registration.
Proof. solve_decision. Defined.

Definition regApi (P : Parser) : Registration :=
  {| reg_parent := CLI P; reg_command := "api"; reg_short := "API";
     reg_long := ""; reg_data := apiCmd |}.

Definition regDescribe (c : Command) : Registration :=
  {| reg_parent := c; reg_command := "describe";
     reg_short := "display documentation for the def under the cursor";
     reg_long := "Returns information about the definition referred to by the cursor's current position in a file.";
     reg_data := apiDescribeCmd |}.

Definition regList (c : Command) : Registration :=
  {| reg_parent := c; reg_command := "list";
     reg_short := "list all refs in a given file";
     reg_long := "Return a list of all references that are in the current file.";
     reg_data := apiListCmd |}.

(** [init], from the registrations [made] so far; it returns the
    registrations it attempted after them. *)
Definition init (P : Parser) (made : list Registration)
    : InitOutcome * list Registration :=
  match AddCommand P made (regApi P) with
  | Fail err => (InitFatal err, made ++ [regApi P])
  | Ok c =>
  let made := made ++ [regApi P] in
  match AddCommand P made (regDescribe c) with
  | Fail err => (InitFatal err, made ++ [regDescribe c])
  | Ok _ =>
  let made := made ++ [regDescribe c] in
  match AddCommand P made (regList c) with
  | Fail err => (InitFatal err, made ++ [regList c])
  | Ok _ => (InitReturns, made ++ [regList c])
  end end end.

(** [APICmd.Execute]: the [api] command itself does nothing. *)
Definition APICmd_Execute (args : list string) : option error := None.

(** ** Vocabulary of the statements *)

Section Vocabulary.

Context (E : Env).

(** The manifest [unitFile] opens and decodes to [u]. *)
Definition loadsUnit (fsys : FileSystem) (unitFile : string)
    (u : SourceUnit) : Prop :=
  exists f, fs_Open fsys unitFile = Ok f /\ decodeSourceUnit f = Ok u.

(** The file at [path] opens and decodes to the graph [g]. *)
Definition loadsGraph (fsys : FileSystem) (path : string) (g : Output)
    : Prop :=
  exists f, fs_Open fsys path = Ok f /\ decodeOutput f = Ok g.

(** The graph artifact of [u] opens and decodes to [g]. *)
Definition loadsGraphOf (fsys : FileSystem) (buildStore : RepositoryStore)
    (repo : Repo) (u : SourceUnit) (g : Output) : Prop :=
  loadsGraph fsys (graphFileOf E buildStore repo u) g.

(** What loading a manifest yields: [Open], then [Decode] with the file
    name put in front of a decoding error. *)
Definition loadUnit (fsys : FileSystem) (unitFile : string)
    : result SourceUnit :=
  f ← fs_Open fsys unitFile; orErrorf unitFile (decodeSourceUnit f).

Definition loadGraph (fsys : FileSystem) (path : string) : result Output :=
  f ← fs_Open fsys path; orErrorf path (decodeOutput f).

(** The unit lists the (cleaned) query file among its cleaned files. *)
Definition containsFile (filename : string) (u : SourceUnit) : Prop :=
  filename ∈ filepath_Clean E <$> Files u.

(** The manifests of a commit, in the order of the walk. *)
Definition unitFilesOf (fsys : FileSystem) (buildStore : RepositoryStore)
    (repo : Repo) : list string :=
  filter (fun path => HasSuffix path (DataTypeSuffix_SourceUnit E) = true)
         (fs_Walk fsys (CommitPath buildStore (CommitID repo))).

(** The span of a ref covers a byte offset, both ends included. *)
Definition covered (file : string) (p : Z) (r : Ref) : Prop :=
  Ref_File r = file /\ (Start r <= p <= End_ r)%Z.

(** The locator of the def a ref of unit [u] points to, with the empty
    fields of the ref read as "this unit" and "this repository". *)
Definition locatorOf (repo : Repo) (u : SourceUnit) (r : Ref) : DefSpec :=
  {| spec_Repo := if bool_decide (DefRepo r = "") then URI repo else DefRepo r;
     spec_UnitType :=
       if bool_decide (DefUnitType r = "") then Type_ u else DefUnitType r;
     spec_Unit := if bool_decide (DefUnit r = "") then Name u else DefUnit r;
     spec_Path := DefPath r |}.

(** The events a run added to the trace. *)
Definition newEvents (w w' : World) (evs : list Event) : Prop :=
  trace w' = trace w ++ evs.

(** [r'] is [r] with some of its empty def fields filled in. *)
Definition ref_filled (r r' : Ref) : Prop :=
  Ref_File r' = Ref_File r /\ Start r' = Start r /\ End_ r' = End_ r /\
  DefPath r' = DefPath r /\
  (DefUnit r' = DefUnit r \/ DefUnit r = "") /\
  (DefUnitType r' = DefUnitType r \/ DefUnitType r = "") /\
  (DefRepo r' = DefRepo r \/ DefRepo r = "").

(** The in-memory graph [g'] is the decoded [g] up to filled-in refs. *)
Definition graph_preserved (g g' : Output) : Prop :=
  Defs g' = Defs g /\ Docs g' = Docs g /\ Forall2 ref_filled (Refs g) (Refs g').

(** The locator a goroutine sends to the remote service. *)
Definition taskSpec (t : Task) : DefSpec :=
  match t with
  | TaskGet spec _ => spec
  | TaskListExamples spec _ => spec
  end.

(** Every graph of [decoded] is what some stored file decodes to. *)
Definition allDecoded (fsys : FileSystem) (decoded : Memory) : Prop :=
  Forall (fun g => exists path, loadsGraph fsys path g) decoded.

(** The memory [mem] is [decoded] with at most the ref at [oa] changed,
    and that one only by filling in empty def fields. *)
Definition filledAt (oa : option Addr) (decoded mem : Memory) : Prop :=
  match oa with
  | None => mem = decoded
  | Some a =>
      exists r r', getRef decoded a = Some r /\ ref_filled r r' /\
                   mem = setRef decoded a (fun _ => r')
  end.

Definition filled_memory (decoded mem : Memory) : Prop :=
  exists oa, filledAt oa decoded mem.

(** [a] is the address the scan of [describe] returns in this run, and the
    ref there covers the position. *)
Definition scanned (c : APIDescribeCmd) (w : World) (a : Addr) : Prop :=
  exists file repo buildStore units w1 mem,
    openAndBuild E (File_ c) w = (Ok (file, repo, buildStore, units), w1) /\
    scanUnits E (fs w1) buildStore repo file (StartByte c) units [] =
      (Ok (Some a), mem) /\
    exists r, getRef mem a = Some r /\ covered file (StartByte c) r.

(** The remote client with its errors erased. *)
Definition silenced (E0 : Env) : Env :=
  {| filepath_Clean := filepath_Clean E0;
     filepath_Dir := filepath_Dir E0;
     filepath_Rel := filepath_Rel E0;
     filepath_Join := filepath_Join E0;
     os_Chdir := os_Chdir E0;
     OpenRepo := OpenRepo E0;
     ConfigCmd_Execute := ConfigCmd_Execute E0;
     MakeCmd_Execute := MakeCmd_Execute E0;
     NewRepositoryStore := NewRepositoryStore E0;
     DataTypeSuffix_SourceUnit := DataTypeSuffix_SourceUnit E0;
     SourceUnitDataFilename := SourceUnitDataFilename E0;
     Defs_Get := fun spec opt => (fst (Defs_Get E0 spec opt), None);
     Defs_ListExamples :=
       fun spec opt => (fst (Defs_ListExamples E0 spec opt), None);
     Encode_Refs := Encode_Refs E0;
     Encode_Resp := Encode_Resp E0 |}.

#[global] Instance containsFile_dec filename u :
  Decision (containsFile filename u).
Proof. unfold containsFile. apply _. Defined.

End Vocabulary.

(** ** More vocabulary: kinds of events *)

(** What the prologue of a command may add to the trace. *)
Definition prologueEvent (ev : Event) : Prop :=
  match ev with
  | EvChdir _ | EvConfigure _ | EvMake _ => True
  | _ => False
  end.

(** A document written on standard output. *)
Definition isOutput (ev : Event) : bool :=
  match ev with
  | EvPrintln _ | EvEncodeRefs _ | EvEncodeResp _ => true
  | _ => false
  end.


(** The options of the two external build steps. *)
Definition buildOptions (repo : Repo) : Options :=
  {| opt_Repo := URI repo; Subdir := "." |}.

Definition configCmdOf (repo : Repo) : ConfigCmd :=
  {| cfg_Options := buildOptions repo;
     cfg_ToolchainExecOpt := {| ExeMethods := "program" |} |}.

Definition makeCmdOf (repo : Repo) : MakeCmd :=
  {| mk_Options := buildOptions repo;
     mk_ToolchainExecOpt := {| ExeMethods := "program" |} |}.

(** [s] ends with [suffix]. *)
Definition endsWith (s suffix : string) : Prop :=
  exists front, s = front +:+ suffix.

(** ** A concrete repository

    A small instance of the environment, used to run the commands: lexical
    Unix paths for path/filepath, an in-memory file system, a build that
    writes a fixed set of artifacts, and a remote client with fixed
    answers. *)

Module Fixture.

(** *** path/filepath on slash-separated paths *)

Fixpoint splitSlash (s : string) (cur : string) : list string :=
  match s with
  | EmptyString => [cur]
  | String c s' =>
      if Ascii.eqb c "/"%char then cur :: splitSlash s' ""
      else splitSlash s' (cur +:+ String c "")
  end.

Fixpoint joinSlash (elems : list string) : string :=
  match elems with
  | [] => ""
  | [e] => e
  | e :: rest => e +:+ "/" +:+ joinSlash rest
  end.

(** Drop empty and [.] elements; a [..] removes the element before it,
    is dropped at the root, and is kept at the front of a relative path.
    [out] is the cleaned prefix, last element first. *)
Fixpoint cleanElems (rooted : bool) (elems : list string)
    (out : list string) : list string :=
  match elems with
  | [] => reverse out
  | e :: rest =>
      if bool_decide (e = "") || bool_decide (e = ".")
      then cleanElems rooted rest out
      else if bool_decide (e = "..")
      then match out with
           | top :: out' =>
               if bool_decide (top = "..")
               then cleanElems rooted rest (e :: out)
               else cleanElems rooted rest out'
           | [] =>
               if rooted then cleanElems rooted rest []
               else cleanElems rooted rest [e]
           end
      else cleanElems rooted rest (e :: out)
  end.

Definition Clean (path : string) : string :=
  let rooted := String.prefix "/" path in
  let body := joinSlash (cleanElems rooted (splitSlash path "") []) in
  if rooted then "/" +:+ body
  else if bool_decide (body = "") then "." else body.

Definition Join (a b : string) : string :=
  if bool_decide (a = "") then (if bool_decide (b = "") then "" else Clean b)
  else if bool_decide (b = "") then Clean a
  else Clean (a +:+ "/" +:+ b).

Definition Dir (path : string) : string :=
  match splitSlash path "" with
  | [] | [_] => "."
  | elems => Clean (joinSlash (removelast elems) +:+ "/")
  end.

Fixpoint dropPrefix (prefix s : string) : option string :=
  match prefix, s with
  | EmptyString, _ => Some s
  | String p prefix', String c s' =>
      if Ascii.eqb p c then dropPrefix prefix' s' else None
  | String _ _, EmptyString => None
  end.

(** [filepath.Rel] for a target at or below the base. *)
Definition Rel (basepath targpath : string) : result string :=
  let base := Clean basepath in
  let targ := Clean targpath in
  if bool_decide (targ = base) then Ok "."
  else
    match dropPrefix (if bool_decide (base = "/") then base else base +:+ "/")
                     targ with
    | Some rest => Ok rest
    | None =>
        Fail (errorString
                ("Rel: can't make " +:+ targpath +:+ " relative to "
                 +:+ basepath))
    end.

(** *** An in-memory file system *)

Fixpoint lookupFile (files : list (string * File)) (path : string)
    : option File :=
  match files with
  | [] => None
  | (name, f) :: rest =>
      if bool_decide (name = path) then Some f else lookupFile rest path
  end.

Definition mkFS (files : list (string * File)) : FileSystem :=
  {| fs_Stat := fun path =>
       if existsb (fun entry => String.prefix path (fst entry)) files
       then None
       else Some (ErrNotExist ("stat " +:+ path
                               +:+ ": no such file or directory"));
     fs_Walk := fun root =>
       filter (fun name => String.prefix root name = true) (fst <$> files);
     fs_Open := fun path =>
       match lookupFile files path with
       | Some f => Ok f
       | None => Fail (ErrNotExist ("open " +:+ path
                                    +:+ ": no such file or directory"))
       end |}.

Definition unitJSON (u : SourceUnit) : File :=
  {| decodeSourceUnit := Ok u;
     decodeOutput := Fail (errorString "json: cannot unmarshal") |}.

Definition graphJSON (g : Output) : File :=
  {| decodeSourceUnit := Fail (errorString "json: cannot unmarshal");
     decodeOutput := Ok g |}.

Definition truncatedJSON : File :=
  {| decodeSourceUnit := Fail (errorString "unexpected end of JSON input");
     decodeOutput := Fail (errorString "unexpected end of JSON input") |}.

(** *** The repository [/r] at commit [c0] *)

Definition repo : Repo :=
  {| RootDir := "/r"; URI := "example.com/r"; CommitID := "c0" |}.

Definition store : RepositoryStore :=
  {| CommitPath := fun commit => ".srclib-cache/" +:+ commit;
     FilePath := fun commit name =>
       ".srclib-cache/" +:+ commit +:+ "/" +:+ name |}.

Definition dataFilename (kind : string) (u : SourceUnit) : string :=
  Name u +:+ "/" +:+ Type_ u +:+ "." +:+ kind +:+ ".json".

(** Unit [A] lists [a.py] twice (once as [./a.py]); unit [B] lists it
    after [b.py]. *)
Definition unitA : SourceUnit :=
  {| Name := "A"; Type_ := "PipPackage"; Files := ["a.py"; "./a.py"] |}.

Definition unitB : SourceUnit :=
  {| Name := "B"; Type_ := "PipPackage"; Files := ["b.py"; "a.py"] |}.

(** The refs of [a.py] in unit [A]: to a def of the same unit, to a def
    that the unit does not have, to a unit without a graph, and to a def
    of another repository.  The first two overlap on [15..20]. *)
Definition refF : Ref :=
  {| DefRepo := ""; DefUnitType := ""; DefUnit := ""; DefPath := "f";
     Ref_File := "a.py"; Start := 10; End_ := 20 |}.

Definition refG : Ref :=
  {| DefRepo := ""; DefUnitType := ""; DefUnit := ""; DefPath := "g";
     Ref_File := "a.py"; Start := 15; End_ := 30 |}.

Definition refGone : Ref :=
  {| DefRepo := ""; DefUnitType := "PipPackage"; DefUnit := "gone";
     DefPath := "h"; Ref_File := "a.py"; Start := 40; End_ := 50 |}.

Definition refForeign : Ref :=
  {| DefRepo := "github.com/x/y"; DefUnitType := "GoPackage";
     DefUnit := "lib"; DefPath := "Z";
     Ref_File := "a.py"; Start := 60; End_ := 70 |}.

Definition refOther : Ref :=
  {| DefRepo := ""; DefUnitType := ""; DefUnit := ""; DefPath := "f";
     Ref_File := "b.py"; Start := 10; End_ := 20 |}.

Definition defF : Def :=
  {| Def_Path := "f"; Def_File := "a.py"; Def_Data := "{}" |}.

Definition docF : Doc := {| Doc_Path := "f"; Doc_Data := "<p>f</p>" |}.

Definition graphA : Output :=
  {| Defs := [defF];
     Refs := [refOther; refF; refG; refGone; refForeign];
     Docs := [docF] |}.

Definition refB : Ref :=
  {| DefRepo := ""; DefUnitType := "PipPackage"; DefUnit := "A";
     DefPath := "f"; Ref_File := "a.py"; Start := 10; End_ := 20 |}.

Definition graphB : Output :=
  {| Defs := []; Refs := [refB]; Docs := [] |}.

Definition unitFileA : string := ".srclib-cache/c0/A/PipPackage.unit.json".
Definition unitFileB : string := ".srclib-cache/c0/B/PipPackage.unit.json".
Definition graphFileA : string := ".srclib-cache/c0/A/PipPackage.graph.json".
Definition graphFileB : string := ".srclib-cache/c0/B/PipPackage.graph.json".

(** The artifacts of a complete build, in the order of the walk. *)
Definition builtFiles : list (string * File) :=
  [ (graphFileA, graphJSON graphA); (unitFileA, unitJSON unitA);
    (graphFileB, graphJSON graphB); (unitFileB, unitJSON unitB) ].

(** A build that was cut short while writing the manifest of [A]. *)
Definition badManifestFiles : list (string * File) :=
  [ (graphFileA, graphJSON graphA); (unitFileA, truncatedJSON);
    (graphFileB, graphJSON graphB); (unitFileB, unitJSON unitB) ].

(** A build that was cut short while writing the graph of [B]. *)
Definition badGraphFiles : list (string * File) :=
  [ (graphFileA, graphJSON graphA); (unitFileA, unitJSON unitA);
    (graphFileB, truncatedJSON); (unitFileB, unitJSON unitB) ].

Definition exampleF : Example := {| Example_Src := "f(1)" |}.

Definition remoteG : sgDef :=
  {| sg_Def := {| Def_Path := "g"; Def_File := "lib/g.py"; Def_Data := "{}" |};
     DocHTML := "<p>g</p>" |}.

(** The environment: configure succeeds or fails with [configErr] and
    writes nothing; make writes [files]; the remote client answers
    [getAnswer] and [examplesAnswer] to every request. *)
Definition env (configErr : option error) (files : list (string * File))
    (getAnswer : option sgDef * option error)
    (examplesAnswer : list Example * option error) : Env :=
  {| filepath_Clean := Clean;
     filepath_Dir := Dir;
     filepath_Rel := Rel;
     filepath_Join := Join;
     os_Chdir := fun _ => None;
     OpenRepo := fun dir =>
       if String.prefix "/r" dir then Ok repo
       else Fail (errorString "not a repository");
     ConfigCmd_Execute := fun _ fsys => (configErr, fsys);
     MakeCmd_Execute := fun _ _ => (None, mkFS files);
     NewRepositoryStore := fun _ => Ok store;
     DataTypeSuffix_SourceUnit := "unit.json";
     SourceUnitDataFilename := dataFilename;
     Defs_Get := fun _ _ => getAnswer;
     Defs_ListExamples := fun _ _ => examplesAnswer;
     Encode_Refs := fun _ => None;
     Encode_Resp := fun _ => None |}.

Definition networkError : error := errorString "connection refused".

(** The usual environment: a complete build and a reachable service. *)
Definition E0 : Env :=
  env None builtFiles (Some remoteG, None) ([exampleF], None).

(** The service answers the examples but not the def. *)
Definition EdefDown : Env :=
  env None builtFiles (None, Some networkError) ([exampleF], None).

(** The build left a damaged manifest, or a damaged graph. *)
Definition EbadManifest : Env :=
  env None badManifestFiles (Some remoteG, None) ([exampleF], None).

Definition EbadGraph : Env :=
  env None badGraphFiles (Some remoteG, None) ([exampleF], None).

(** Configure fails. *)
Definition Econfig : Env :=
  env (Some (errorString "no toolchains")) builtFiles
      (Some remoteG, None) ([exampleF], None).

(** Before the first build, and after a build. *)
Definition fresh : World := {| fs := mkFS []; trace := [] |}.
Definition built : World := {| fs := mkFS builtFiles; trace := [] |}.

Definition describeAt (p : Z) : APIDescribeCmd :=
  {| File_ := "/r/./a.py"; StartByte := p; NoExamples := false |}.

(** The world in which the commands run once [/r] has been built. *)
Definition afterBuild : World := snd (openAndBuild E0 "/r/./a.py" fresh).

End Fixture.

(** ** More of the repository [/r]: documentation, and a parser *)

Module Fixture2.

Import Fixture.

(** The graph of [A] with two docs for [f], an older one first. *)
Definition docOld : Doc := {| Doc_Path := "f"; Doc_Data := "<p>old</p>" |}.
Definition docNew : Doc := {| Doc_Path := "f"; Doc_Data := "<p>new</p>" |}.
Definition docG : Doc := {| Doc_Path := "g"; Doc_Data := "<p>g</p>" |}.

Definition graphDocs : Output :=
  {| Defs := [defF]; Refs := Refs graphA; Docs := [docOld; docNew; docG] |}.

Definition docFiles : list (string * File) :=
  [ (graphFileA, graphJSON graphDocs); (unitFileA, unitJSON unitA);
    (graphFileB, graphJSON graphB); (unitFileB, unitJSON unitB) ].

Definition Edocs : Env :=
  env None docFiles (Some remoteG, None) ([exampleF], None).

Definition afterDocs : World := snd (openAndBuild Edocs "/r/./a.py" fresh).

Definition afterBadGraph : World :=
  snd (openAndBuild EbadGraph "/r/./a.py" fresh).

(** A parser that accepts every registration, and one that refuses
    [list]. *)
Definition parserOk : Parser :=
  {| CLI := {| cmd_id := 0 |};
     AddCommand := fun made _ => Ok {| cmd_id := S (length made) |} |}.

Definition parserNoList : Parser :=
  {| CLI := {| cmd_id := 0 |};
     AddCommand := fun made reg =>
       if bool_decide (reg_command reg = "list")
       then Fail (errorString "cannot add command")
       else Ok {| cmd_id := S (length made) |} |}.

End Fixture2.

(** ** Properties of [ensureBuild] *)

Section EnsureBuild.

Context (E : Env).

(** C7. [ensureBuild] runs the configure step exactly when the stat of the
    commit path reports that it does not exist; it then runs the make step
    whatever the stat said, unless configure ran and failed; the error of a
    failed step is returned as it is, and a failed configure is the last
    step run. *)
Theorem ensureBuild_steps (buildStore : RepositoryStore) (repo : Repo)
    (w : World) :
  let opts := {| opt_Repo := URI repo; Subdir := "." |} in
  let cfg := {| cfg_Options := opts;
                cfg_ToolchainExecOpt := {| ExeMethods := "program" |} |} in
  let mk := {| mk_Options := opts;
               mk_ToolchainExecOpt := {| ExeMethods := "program" |} |} in
  let notBuilt :=
    IsNotExist (fs_Stat (fs w) (CommitPath buildStore (CommitID repo))) in
  let configured := ConfigCmd_Execute E cfg (fs w) in
  let fs1 := if notBuilt then snd configured else fs w in
  let made := MakeCmd_Execute E mk fs1 in
  let err := fst (ensureBuild E buildStore repo w) in
  let w' := snd (ensureBuild E buildStore repo w) in
  exists evs,
    newEvents w w' evs /\
    (* configure iff the commit path does not exist *)
    (EvConfigure cfg ∈ evs <-> notBuilt = true) /\
    (forall c, EvConfigure c ∈ evs -> c = cfg) /\
    (* make always, unless configure failed *)
    (EvMake mk ∈ evs <-> ~ (notBuilt = true /\ is_Some (fst configured))) /\
    (* a failing configure aborts with its error, before make *)
    (forall e, notBuilt = true -> fst configured = Some e ->
       err = Some e /\ evs = [EvConfigure cfg] /\ fs w' = snd configured) /\
    (* otherwise the outcome is that of make, run after configure if any *)
    (~ (notBuilt = true /\ is_Some (fst configured)) ->
       err = fst made /\ fs w' = snd made /\
       evs = (if notBuilt then [EvConfigure cfg] else []) ++ [EvMake mk]).
Proof.
  intros opts cfg mk notBuilt configured fs1 made err w'.
  subst err w'. unfold ensureBuild, runConfigure, runMake.
  fold opts. fold cfg. fold mk. fold notBuilt.
  subst fs1 made.
  assert (Hsingle : forall (a b : Event), a ∈ [b] <-> a = b)
    by (intros; apply list_elem_of_singleton).
  destruct notBuilt eqn:Hnb; simpl.
  - subst configured.
    destruct (ConfigCmd_Execute E cfg (fs w)) as [[e|] fs1] eqn:Hc; simpl.
    + exists [EvConfigure cfg]. unfold newEvents. simpl. split_and!.
      * done.
      * rewrite Hsingle. done.
      * intros c Hin%Hsingle. by simplify_eq.
      * rewrite Hsingle. split; [done|]. intros []. split; [done | by eexists].
      * intros e' _ [= ->]. done.
      * intros []. split; [done | by eexists].
    + destruct (MakeCmd_Execute E mk fs1) as [r fs2] eqn:Hm; simpl.
      exists [EvConfigure cfg; EvMake mk]. unfold newEvents. simpl.
      rewrite <- app_assoc. simpl. split_and!.
      * done.
      * split; [done|]. intros _. apply list_elem_of_here.
      * intros c [Hin | Hin%Hsingle]%elem_of_cons; by simplify_eq.
      * split; [by intros _ [_ [? ?]] |].
        intros _. apply list_elem_of_further, list_elem_of_here.
      * intros e' _ [=].
      * done.
  - destruct (MakeCmd_Execute E mk (fs w)) as [r fs2] eqn:Hm; simpl.
    exists [EvMake mk]. unfold newEvents. simpl. split_and!.
    + done.
    + rewrite Hsingle. done.
    + intros c Hin%Hsingle. by simplify_eq.
    + split; [by intros _ [? _] |]. intros _. apply list_elem_of_here.
    + intros e' [=].
    + done.
Qed.

End EnsureBuild.

(** ** Properties of [getSourceUnitsWithFile] *)

Section UnitLookup.

Context (E : Env).

Lemma collectUnitFiles_filter (unitSuffix : string) (paths acc : list string) :
  collectUnitFiles unitSuffix paths acc =
  acc ++ filter (fun path => HasSuffix path unitSuffix = true) paths.
Proof.
  revert acc. induction paths as [|path rest IH]; intros acc; simpl.
  - by rewrite app_nil_r.
  - rewrite filter_cons. destruct (HasSuffix path unitSuffix) eqn:Hs.
    + rewrite IH. case_decide; [|done]. by rewrite <- app_assoc.
    + rewrite IH. case_decide; [done|]. done.
Qed.

Lemma appendIfContains_spec (u : SourceUnit) (files : list string)
    (filename : string) (units : list SourceUnit) :
  appendIfContains E u files filename units =
  units ++ (if decide (filename ∈ filepath_Clean E <$> files) then [u] else []).
Proof.
  induction files as [|f2 rest IH].
  - simpl. by rewrite app_nil_r.
  - cbn [appendIfContains]. rewrite fmap_cons. case_bool_decide as Hf.
    + rewrite decide_True; [done | subst; apply list_elem_of_here].
    + rewrite IH. destruct (decide (filename ∈ filepath_Clean E <$> rest)) as [Hin|Hin].
      * rewrite decide_True; [done | by apply list_elem_of_further].
      * rewrite decide_False; [done|].
        intros [?|?]%elem_of_cons; [congruence | done].
Qed.

Lemma loadUnit_Ok (fsys : FileSystem) (unitFile : string) (u : SourceUnit) :
  loadUnit fsys unitFile = Ok u <-> loadsUnit fsys unitFile u.
Proof.
  unfold loadUnit, loadsUnit. split.
  - destruct (fs_Open fsys unitFile) as [f|e] eqn:Ho; simpl; [|done].
    destruct (decodeSourceUnit f) as [u'|e] eqn:Hd; simpl; [|done].
    intros [= ->]. eauto.
  - intros (f & -> & Hd). simpl. by rewrite Hd.
Qed.

Lemma unitsLoop_step (fsys : FileSystem) (unitFile : string)
    (rest : list string) (filename : string) (units : list SourceUnit) :
  unitsLoop E fsys (unitFile :: rest) filename units =
  match loadUnit fsys unitFile with
  | Ok u =>
      unitsLoop E fsys rest filename
        (appendIfContains E u (Files u) filename units)
  | Fail e => Fail e
  end.
Proof.
  simpl. unfold loadUnit.
  destruct (fs_Open fsys unitFile) as [f|e]; simpl; [|done].
  by destruct (decodeSourceUnit f).
Qed.

Lemma unitsLoop_loaded (fsys : FileSystem) (unitFiles : list string)
    (us : list SourceUnit) (filename : string) (units : list SourceUnit) :
  Forall2 (loadsUnit fsys) unitFiles us ->
  unitsLoop E fsys unitFiles filename units =
  Ok (units ++ filter (containsFile E filename) us).
Proof.
  intros Hall. revert units.
  induction Hall as [|unitFile u rest us' Hu _ IH]; intros units.
  - simpl. by rewrite app_nil_r.
  - rewrite unitsLoop_step. apply loadUnit_Ok in Hu. rewrite Hu.
    rewrite IH, appendIfContains_spec, filter_cons. unfold containsFile at 2.
    destruct (decide (filename ∈ filepath_Clean E <$> Files u)).
    + by rewrite <- app_assoc.
    + by rewrite app_nil_r.
Qed.

(** The loop fails with the error of the first manifest that does not load. *)
Lemma unitsLoop_first_failure (fsys : FileSystem)
    (before : list string) (us : list SourceUnit) (unitFile : string)
    (after : list string) (e : error) (filename : string)
    (units : list SourceUnit) :
  Forall2 (loadsUnit fsys) before us ->
  loadUnit fsys unitFile = Fail e ->
  unitsLoop E fsys (before ++ unitFile :: after) filename units = Fail e.
Proof.
  intros Hall Hfail. revert units.
  induction Hall as [|f u rest us' Hu _ IH]; intros units.
  - simpl app. rewrite unitsLoop_step. by rewrite Hfail.
  - simpl app. rewrite unitsLoop_step. apply loadUnit_Ok in Hu. rewrite Hu.
    apply IH.
Qed.

Lemma unitsLoop_isOk (fsys : FileSystem) (unitFiles : list string)
    (filename : string) (units : list SourceUnit) :
  isOk (unitsLoop E fsys unitFiles filename units) = true <->
  Forall (fun unitFile => isOk (loadUnit fsys unitFile) = true) unitFiles.
Proof.
  revert units. induction unitFiles as [|unitFile rest IH]; intros units.
  - simpl. split; [by constructor | done].
  - rewrite unitsLoop_step, Forall_cons.
    destruct (loadUnit fsys unitFile) as [u|e]; simpl.
    + rewrite IH. tauto.
    + split; [done | by intros [? _]].
Qed.

Lemma getSourceUnitsWithFile_unfold (fsys : FileSystem)
    (buildStore : RepositoryStore) (repo : Repo) (filename : string) :
  getSourceUnitsWithFile E fsys buildStore repo filename =
  unitsLoop E fsys (unitFilesOf E fsys buildStore repo)
    (filepath_Clean E filename) [].
Proof.
  unfold getSourceUnitsWithFile, unitFilesOf.
  by rewrite collectUnitFiles_filter.
Qed.

(** C6. When the manifests of the commit decode to the units [us],
    [getSourceUnitsWithFile] returns, in the order of the walk, all the
    units of [us] that list the cleaned query file among their cleaned
    files, and not only the first one; when no unit lists it the result is
    the empty list, without an error. *)
Theorem getSourceUnitsWithFile_all (fsys : FileSystem)
    (buildStore : RepositoryStore) (repo : Repo) (filename : string)
    (us : list SourceUnit) :
  Forall2 (loadsUnit fsys) (unitFilesOf E fsys buildStore repo) us ->
  getSourceUnitsWithFile E fsys buildStore repo filename =
    Ok (filter (containsFile E (filepath_Clean E filename)) us) /\
  (forall units,
     getSourceUnitsWithFile E fsys buildStore repo filename = Ok units ->
     forall u, u ∈ units <->
       u ∈ us /\
       exists f2, f2 ∈ Files u /\
                  filepath_Clean E f2 = filepath_Clean E filename) /\
  ((forall u, u ∈ us -> ~ containsFile E (filepath_Clean E filename) u) ->
   getSourceUnitsWithFile E fsys buildStore repo filename = Ok []).
Proof.
  intros Hall.
  assert (Hres : getSourceUnitsWithFile E fsys buildStore repo filename =
    Ok (filter (containsFile E (filepath_Clean E filename)) us)).
  { rewrite getSourceUnitsWithFile_unfold.
    by rewrite (unitsLoop_loaded _ _ us). }
  split_and!.
  - done.
  - intros units Hunits u. rewrite Hres in Hunits. injection Hunits as <-.
    rewrite list_elem_of_filter. unfold containsFile.
    rewrite list_elem_of_fmap. split.
    + intros [(f2 & Hclean & Hf2) Hu]. eauto.
    + intros [Hu (f2 & Hf2 & Hclean)]. eauto.
  - intros Hnone. rewrite Hres. f_equal. clear Hall Hres.
    induction us as [|u us' IH]; [done|].
    rewrite filter_cons_False; [|apply Hnone, list_elem_of_here].
    apply IH. intros u0 Hin. by apply Hnone, list_elem_of_further.
Qed.

End UnitLookup.

(** ** Memory of decoded graphs *)

Section MemoryFacts.

Lemma getRef_setRef_eq (mem : Memory) (a : Addr) (f : Ref -> Ref) :
  getRef (setRef mem a f) a = f <$> getRef mem a.
Proof.
  unfold getRef, setRef. rewrite list_lookup_alter_eq.
  destruct (mem !! graphIx a) as [g|]; simpl; [|done].
  by rewrite list_lookup_alter_eq.
Qed.

Lemma getRef_setRef_ne (mem : Memory) (a b : Addr) (f : Ref -> Ref) :
  a <> b -> getRef (setRef mem a f) b = getRef mem b.
Proof.
  intros Hne. unfold getRef, setRef.
  destruct (decide (graphIx a = graphIx b)) as [Hk|Hk].
  - rewrite <- Hk, list_lookup_alter_eq.
    destruct (mem !! graphIx a) as [g|]; simpl; [|done].
    rewrite list_lookup_alter_ne; [done|].
    intros Hi. apply Hne. destruct a, b; simpl in *; congruence.
  - by rewrite list_lookup_alter_ne.
Qed.

Lemma setRef_setRef (mem : Memory) (a : Addr) (f g : Ref -> Ref) :
  setRef (setRef mem a f) a g = setRef mem a (g ∘ f).
Proof.
  unfold setRef. rewrite list_alter_alter_eq.
  apply list_alter_ext; [|done]. intros h _. unfold withRefs; simpl.
  by rewrite list_alter_alter_eq.
Qed.

Lemma setRef_last (mem : Memory) (g : Output) (i : nat) (f : Ref -> Ref) :
  setRef (mem ++ [g]) {| graphIx := length mem; refIx := i |} f =
  mem ++ [withRefs g (alter f i (Refs g))].
Proof.
  unfold setRef; simpl.
  by rewrite <- (Nat.add_0_r (length mem)), alter_app_r.
Qed.

Lemma setRef_app_l (mem : Memory) (g : Output) (a : Addr) (f : Ref -> Ref) :
  graphIx a < length mem ->
  setRef (mem ++ [g]) a f = setRef mem a f ++ [g].
Proof. intros Hlt. unfold setRef. by rewrite alter_app_l. Qed.

Lemma getRef_app_l (mem : Memory) (g : Output) (a : Addr) :
  graphIx a < length mem -> getRef (mem ++ [g]) a = getRef mem a.
Proof. intros Hlt. unfold getRef. by rewrite lookup_app_l. Qed.

Lemma getRef_lt (mem : Memory) (a : Addr) (r : Ref) :
  getRef mem a = Some r -> graphIx a < length mem.
Proof.
  unfold getRef. destruct (mem !! graphIx a) as [g|] eqn:Hg; simpl; [|done].
  intros _. by eapply lookup_lt_Some.
Qed.

Lemma length_setRef (mem : Memory) (a : Addr) (f : Ref -> Ref) :
  length (setRef mem a f) = length mem.
Proof. unfold setRef. apply length_alter. Qed.

Lemma setRef_ext (mem : Memory) (a : Addr) (f g : Ref -> Ref) (r : Ref) :
  getRef mem a = Some r -> f r = g r -> setRef mem a f = setRef mem a g.
Proof.
  unfold getRef, setRef. intros Hget Hfg.
  destruct (mem !! graphIx a) as [h|] eqn:Hh; simpl in Hget; [|done].
  apply list_alter_ext; [|done]. intros h' Hh'. simplify_eq.
  unfold withRefs. f_equal. apply list_alter_ext; [|done].
  intros r' Hr'. by simplify_eq.
Qed.

Lemma alter_middle {A : Type} (f : A -> A) (pre : list A) (x : A)
    (post : list A) :
  alter f (length pre) (pre ++ x :: post) = pre ++ f x :: post.
Proof. by rewrite <- (Nat.add_0_r (length pre)), alter_app_r. Qed.

(** Filling in empty fields composes, and each defaulting step is one. *)
Lemma ref_filled_refl (r : Ref) : ref_filled r r.
Proof. unfold ref_filled. naive_solver. Qed.

Lemma ref_filled_trans (r1 r2 r3 : Ref) :
  ref_filled r1 r2 -> ref_filled r2 r3 -> ref_filled r1 r3.
Proof.
  unfold ref_filled.
  intros (-> & -> & -> & -> & Hu & Ht & Hr) (? & ? & ? & ? & Hu' & Ht' & Hr').
  split_and!; try done.
  - destruct (decide (DefUnit r1 = "")); [by right|].
    left. destruct Hu as [Hu|]; [|done]. destruct Hu' as [Hu'|Hu']; congruence.
  - destruct (decide (DefUnitType r1 = "")); [by right|].
    left. destruct Ht as [Ht|]; [|done]. destruct Ht' as [Ht'|Ht']; congruence.
  - destruct (decide (DefRepo r1 = "")); [by right|].
    left. destruct Hr as [Hr|]; [|done]. destruct Hr' as [Hr'|Hr']; congruence.
Qed.

Lemma defaultDefUnit_filled (u : SourceUnit) (r : Ref) :
  ref_filled r (defaultDefUnit u r).
Proof.
  unfold defaultDefUnit. case_bool_decide; [|apply ref_filled_refl].
  unfold ref_filled; simpl. naive_solver.
Qed.

Lemma defaultDefUnitType_filled (u : SourceUnit) (r : Ref) :
  ref_filled r (defaultDefUnitType u r).
Proof.
  unfold defaultDefUnitType. case_bool_decide; [|apply ref_filled_refl].
  unfold ref_filled; simpl. naive_solver.
Qed.

Lemma defaultDefRepo_filled (repo : Repo) (r : Ref) :
  ref_filled r (defaultDefRepo repo r).
Proof.
  unfold defaultDefRepo. case_bool_decide; [|apply ref_filled_refl].
  unfold ref_filled; simpl. naive_solver.
Qed.

Lemma specOf_defaulted (repo : Repo) (u : SourceUnit) (r : Ref) :
  specOf (defaultDefRepo repo (defaultDefUnitType u (defaultDefUnit u r))) =
  locatorOf repo u r.
Proof.
  unfold specOf, locatorOf, defaultDefRepo, defaultDefUnitType, defaultDefUnit.
  repeat case_bool_decide; simpl in *; reflexivity || congruence.
Qed.

Lemma covers_iff (file : string) (p : Z) (r : Ref) :
  covers file p r = true <-> covered file p r.
Proof.
  unfold covers, covered.
  rewrite !andb_true_iff, bool_decide_eq_true, Z.geb_le, Z.leb_le.
  split.
  - intros [[-> ?] ?]. auto.
  - intros [<- [? ?]]. auto.
Qed.

Lemma covers_false_iff (file : string) (p : Z) (r : Ref) :
  covers file p r = false <-> ~ covered file p r.
Proof. rewrite <- covers_iff. by destruct (covers file p r). Qed.

End MemoryFacts.

(** ** The scan of [describe] for the ref under the cursor *)

Section Scan.

Context (E : Env).
Context (fsys : FileSystem) (buildStore : RepositoryStore) (repo : Repo).
Context (file : string) (p : Z).

Lemma loadGraph_Ok (path : string) (g : Output) :
  loadGraph fsys path = Ok g <-> loadsGraph fsys path g.
Proof.
  unfold loadGraph, loadsGraph. split.
  - destruct (fs_Open fsys path) as [f|e] eqn:Ho; simpl; [|done].
    destruct (decodeOutput f) as [g'|e] eqn:Hd; simpl; [|done].
    intros [= ->]. eauto.
  - intros (f & -> & Hd). simpl. by rewrite Hd.
Qed.

Lemma scanRefs_none (u : SourceUnit) (k : nat) (grefs : list Ref) (i : nat)
    (mem : Memory) :
  Forall (fun r => ~ covered file p r) grefs ->
  scanRefs file p u k grefs i mem = (None, mem).
Proof.
  intros Hall. revert i. induction Hall as [|r rest Hr _ IH]; intros i.
  - done.
  - simpl. apply covers_false_iff in Hr. rewrite Hr. apply IH.
Qed.

Lemma scanRefs_first (u : SourceUnit) (k : nat) (pre : list Ref) (r : Ref)
    (post : list Ref) (i : nat) (mem : Memory) :
  Forall (fun r1 => ~ covered file p r1) pre ->
  covered file p r ->
  let a := {| graphIx := k; refIx := i + length pre |} in
  scanRefs file p u k (pre ++ r :: post) i mem =
  (Some a, setRef (setRef mem a (defaultDefUnit u)) a (defaultDefUnitType u)).
Proof.
  intros Hpre Hr. revert i. induction Hpre as [|r1 pre' Hr1 _ IH]; intros i.
  - simpl. apply covers_iff in Hr. rewrite Hr. by rewrite Nat.add_0_r.
  - simpl. apply covers_false_iff in Hr1. rewrite Hr1.
    rewrite IH. by rewrite Nat.add_succ_comm.
Qed.

(** Every list of refs either has no covering ref or splits at the first. *)
Lemma first_covered (grefs : list Ref) :
  Forall (fun r => ~ covered file p r) grefs \/
  exists pre r post,
    grefs = pre ++ r :: post /\
    Forall (fun r1 => ~ covered file p r1) pre /\ covered file p r.
Proof.
  induction grefs as [|r rest IH]; [by left|].
  destruct (covers file p r) eqn:Hc.
  - right. exists [], r, rest. apply covers_iff in Hc. by split_and!.
  - apply covers_false_iff in Hc. destruct IH as [IH|(pre & r' & post & -> & ? & ?)].
    + left. by constructor.
    + right. exists (r :: pre), r', post. split_and!; [done | by constructor | done].
Qed.

Lemma scanUnits_step (u : SourceUnit) (rest : list SourceUnit) (mem : Memory) :
  scanUnits E fsys buildStore repo file p (u :: rest) mem =
  match loadGraph fsys (graphFileOf E buildStore repo u) with
  | Fail e => (Fail e, mem)
  | Ok g =>
      match scanRefs file p u (length mem) (Refs g) 0 (mem ++ [g]) with
      | (Some ref, mem') => (Ok (Some ref), mem')
      | (None, mem') =>
          scanUnits E fsys buildStore repo file p rest mem'
      end
  end.
Proof.
  simpl. unfold loadGraph.
  destruct (fs_Open fsys (graphFileOf E buildStore repo u)) as [f|e]; simpl; [|done].
  by destruct (decodeOutput f).
Qed.

Lemma scanUnits_none (units : list SourceUnit) (gs : list Output)
    (mem : Memory) :
  Forall2 (loadsGraphOf E fsys buildStore repo) units gs ->
  Forall (fun g => Forall (fun r => ~ covered file p r) (Refs g)) gs ->
  scanUnits E fsys buildStore repo file p units mem = (Ok None, mem ++ gs).
Proof.
  intros Hload. revert mem.
  induction Hload as [|u g units' gs' Hu _ IH]; intros mem Hnone.
  - simpl. by rewrite app_nil_r.
  - apply Forall_cons in Hnone as [Hg Hrest].
    rewrite scanUnits_step. apply loadGraph_Ok in Hu. rewrite Hu.
    rewrite scanRefs_none by done. rewrite IH by done.
    by rewrite <- app_assoc.
Qed.

Lemma scanUnits_first (us1 : list SourceUnit) (gs1 : list Output)
    (u : SourceUnit) (g : Output) (pre : list Ref) (r : Ref)
    (post : list Ref) (us2 : list SourceUnit) (mem : Memory) :
  Forall2 (loadsGraphOf E fsys buildStore repo) us1 gs1 ->
  Forall (fun g1 => Forall (fun r1 => ~ covered file p r1) (Refs g1)) gs1 ->
  loadsGraphOf E fsys buildStore repo u g ->
  Refs g = pre ++ r :: post ->
  Forall (fun r1 => ~ covered file p r1) pre ->
  covered file p r ->
  scanUnits E fsys buildStore repo file p (us1 ++ u :: us2) mem =
  (Ok (Some {| graphIx := length mem + length gs1; refIx := length pre |}),
   mem ++ gs1 ++
     [withRefs g (pre ++ defaultDefUnitType u (defaultDefUnit u r) :: post)]).
Proof.
  intros Hload. revert mem.
  induction Hload as [|u1 g1 us1' gs1' Hu1 _ IH];
    intros mem Hnone Hu Hrefs Hpre Hr.
  - simpl app. rewrite scanUnits_step. apply loadGraph_Ok in Hu. rewrite Hu.
    rewrite Hrefs, scanRefs_first by done. simpl.
    rewrite Nat.add_0_r, setRef_setRef, setRef_last, Hrefs, alter_middle.
    done.
  - apply Forall_cons in Hnone as [Hg1 Hrest].
    simpl app. rewrite scanUnits_step. apply loadGraph_Ok in Hu1. rewrite Hu1.
    rewrite scanRefs_none by done. rewrite IH by done.
    rewrite length_app. simpl. rewrite <- !app_assoc. simpl.
    replace (length mem + 1 + length gs1') with (length mem + S (length gs1'))
      by lia.
    done.
Qed.

Lemma scanUnits_failure (us1 : list SourceUnit) (gs1 : list Output)
    (u : SourceUnit) (e : error) (us2 : list SourceUnit) (mem : Memory) :
  Forall2 (loadsGraphOf E fsys buildStore repo) us1 gs1 ->
  Forall (fun g1 => Forall (fun r1 => ~ covered file p r1) (Refs g1)) gs1 ->
  loadGraph fsys (graphFileOf E buildStore repo u) = Fail e ->
  scanUnits E fsys buildStore repo file p (us1 ++ u :: us2) mem =
  (Fail e, mem ++ gs1).
Proof.
  intros Hload. revert mem.
  induction Hload as [|u1 g1 us1' gs1' Hu1 _ IH]; intros mem Hnone Hfail.
  - simpl app. rewrite scanUnits_step, Hfail. by rewrite app_nil_r.
  - apply Forall_cons in Hnone as [Hg1 Hrest].
    simpl app. rewrite scanUnits_step. apply loadGraph_Ok in Hu1. rewrite Hu1.
    rewrite scanRefs_none by done. rewrite IH by done.
    by rewrite <- app_assoc.
Qed.

(** With every graph loaded, the scan finds a ref exactly when some ref of
    some graph covers the position. *)
Lemma scanUnits_Some_iff (units : list SourceUnit) (gs : list Output)
    (mem : Memory) :
  Forall2 (loadsGraphOf E fsys buildStore repo) units gs ->
  (exists a mem', scanUnits E fsys buildStore repo file p units mem =
                  (Ok (Some a), mem')) <->
  Exists (fun g => Exists (covered file p) (Refs g)) gs.
Proof.
  intros Hload. revert mem.
  induction Hload as [|u g units' gs' Hu _ IH]; intros mem.
  - simpl. rewrite Exists_nil. split; [by intros (a & mem' & ?) | done].
  - rewrite scanUnits_step. pose proof Hu as Hu'.
    apply loadGraph_Ok in Hu'. rewrite Hu'. rewrite Exists_cons.
    destruct (first_covered (Refs g)) as [Hnone|(pre & r & post & Hrefs & Hpre & Hr)].
    + rewrite scanRefs_none by done. rewrite IH.
      split; [by right|]. intros [Hex|Hex]; [|done].
      apply Exists_exists in Hex as (r & Hin & Hr).
      rewrite Forall_forall in Hnone. by apply Hnone in Hin.
    + rewrite Hrefs, scanRefs_first by done. simpl. split; [|by eauto].
      intros _. left. apply Exists_exists. exists r. split; [|done].
      apply elem_of_app. right. apply list_elem_of_here.
Qed.

End Scan.

(** ** [describe] after the scan *)

Section Describe.

Context (E : Env).

Lemma deref_setRef (mem : Memory) (a : Addr) (f : Ref -> Ref) (r : Ref) :
  getRef mem a = Some r -> deref (setRef mem a f) a = Ok (f r).
Proof. intros Hget. unfold deref. by rewrite getRef_setRef_eq, Hget. Qed.

Lemma findDef_first (dpre : list Def) (d : Def) (dpost : list Def)
    (path : string) :
  Forall (fun d' => Def_Path d' <> path) dpre ->
  Def_Path d = path ->
  findDef (dpre ++ d :: dpost) path = Some d.
Proof.
  intros Hpre Hd. induction Hpre as [|d' dpre' Hd' _ IH]; simpl.
  - by rewrite bool_decide_eq_true_2.
  - by rewrite bool_decide_eq_false_2.
Qed.

Lemma findDef_none (defs : list Def) (path : string) :
  Forall (fun d' => Def_Path d' <> path) defs -> findDef defs path = None.
Proof.
  intros Hall. induction Hall as [|d' defs' Hd' _ IH]; simpl; [done|].
  by rewrite bool_decide_eq_false_2.
Qed.

Lemma localDef_unfold (fsys : FileSystem) (buildStore : RepositoryStore)
    (repo : Repo) (r : Ref) (mem : Memory) :
  localDef E fsys buildStore repo r mem =
  match loadGraph fsys
          (graphFileOf E buildStore repo
             {| Name := DefUnit r; Type_ := DefUnitType r; Files := [] |}) with
  | Fail e => (Fail e, mem)
  | Ok g =>
      (Ok (match findDef (Defs g) (DefPath r) with
           | Some def2 =>
               Some {| sg_Def :=
                         withFile def2
                           (filepath_Join E (RootDir repo) (Def_File def2));
                       DocHTML := docHTMLOf (Docs g) (DefPath r) "" |}
           | None => None
           end), mem ++ [g])
  end.
Proof.
  unfold localDef, loadGraph.
  destruct (fs_Open fsys _) as [f|e]; simpl; [|done].
  destruct (decodeOutput f) as [g|e]; simpl; [|done].
  by destruct (findDef (Defs g) (DefPath r)).
Qed.

Lemma describe_prologue_failure (c : APIDescribeCmd) (w w1 : World)
    (e : error) :
  openAndBuild E (File_ c) w = (Fail e, w1) ->
  APIDescribeCmd_Execute E c w = (Some e, w1, []).
Proof. intros Hpro. unfold APIDescribeCmd_Execute. by rewrite Hpro. Qed.

Lemma describe_scan_failure (c : APIDescribeCmd) (w w1 : World)
    (file : string) (repo : Repo) (buildStore : RepositoryStore)
    (units : list SourceUnit) (e : error) (mem : Memory) :
  openAndBuild E (File_ c) w = (Ok (file, repo, buildStore, units), w1) ->
  scanUnits E (fs w1) buildStore repo file (StartByte c) units [] =
    (Fail e, mem) ->
  APIDescribeCmd_Execute E c w = (Some e, w1, mem).
Proof.
  intros Hpro Hscan. unfold APIDescribeCmd_Execute. by rewrite Hpro, Hscan.
Qed.

Lemma describe_not_found (c : APIDescribeCmd) (w w1 : World)
    (file : string) (repo : Repo) (buildStore : RepositoryStore)
    (units : list SourceUnit) (mem : Memory) :
  openAndBuild E (File_ c) w = (Ok (file, repo, buildStore, units), w1) ->
  scanUnits E (fs w1) buildStore repo file (StartByte c) units [] =
    (Ok None, mem) ->
  APIDescribeCmd_Execute E c w = (None, emit (EvPrintln "{}") w1, mem).
Proof.
  intros Hpro Hscan. unfold APIDescribeCmd_Execute. by rewrite Hpro, Hscan.
Qed.

Lemma describe_matched (c : APIDescribeCmd) (w w1 : World)
    (file : string) (repo : Repo) (buildStore : RepositoryStore)
    (units : list SourceUnit) (a : Addr) (mem : Memory) (r1 : Ref) :
  openAndBuild E (File_ c) w = (Ok (file, repo, buildStore, units), w1) ->
  scanUnits E (fs w1) buildStore repo file (StartByte c) units [] =
    (Ok (Some a), mem) ->
  getRef mem a = Some r1 ->
  APIDescribeCmd_Execute E c w =
  let r := defaultDefRepo repo r1 in
  let mem1 := setRef mem a (defaultDefRepo repo) in
  match (if bool_decide (DefRepo r = URI repo)
         then localDef E (fs w1) buildStore repo r mem1
         else (Ok None, mem1)) with
  | (Fail err, mem2) => (Some err, w1, mem2)
  | (Ok def, mem2) =>
      let resp := joined E def (NoExamples c) (specOf r) in
      (Encode_Resp E resp,
       emit (EvEncodeResp resp)
         (emitAll (EvGo <$> tasksOf def (NoExamples c) (specOf r)) w1),
       mem2)
  end.
Proof.
  intros Hpro Hscan Hget. unfold APIDescribeCmd_Execute.
  rewrite Hpro, Hscan. cbv zeta. by rewrite (deref_setRef _ _ _ r1).
Qed.

(** The events of the remote part of a run. *)
Lemma remote_events (w1 : World) (def : option sgDef) (noExamples : bool)
    (spec : DefSpec) (resp : Resp) :
  newEvents w1
    (emit (EvEncodeResp resp)
       (emitAll (EvGo <$> tasksOf def noExamples spec) w1))
    ((EvGo <$> tasksOf def noExamples spec) ++ [EvEncodeResp resp]).
Proof. unfold newEvents, emit, emitAll; simpl. by rewrite app_assoc. Qed.

Lemma tasksOf_spec (def : option sgDef) (noExamples : bool) (spec : DefSpec)
    (t : Task) :
  t ∈ tasksOf def noExamples spec -> taskSpec t = spec.
Proof.
  unfold tasksOf.
  destruct def, noExamples; simpl; intros Hin;
    repeat (apply elem_of_cons in Hin as [->|Hin]; [done|]);
    by apply elem_of_nil in Hin.
Qed.

Lemma EvGo_elem_of (t : Task) (ts : list Task) (ev : Event) :
  EvGo t ∈ (EvGo <$> ts) ++ [ev] -> (forall t', ev <> EvGo t') -> t ∈ ts.
Proof.
  intros [Hin|Hin]%elem_of_app Hev.
  - apply list_elem_of_fmap in Hin as (t' & [= ->] & Hin). done.
  - apply list_elem_of_singleton in Hin. by destruct (Hev t).
Qed.

End Describe.

(** ** What the commands leave in memory *)

Section MemoryInvariant.

Context (E : Env).

Lemma graph_preserved_refl (g : Output) : graph_preserved g g.
Proof.
  unfold graph_preserved. split_and!; [done..|].
  apply Forall_Forall2_diag, Forall_forall. intros r _. apply ref_filled_refl.
Qed.

Lemma filled_memory_preserved (decoded mem : Memory) :
  filled_memory decoded mem -> Forall2 graph_preserved decoded mem.
Proof.
  intros [[a|] Hfilled]; simpl in Hfilled.
  - destruct Hfilled as (r & r' & Hget & Hfill & ->).
    unfold setRef. apply Forall2_alter_r.
    + apply Forall_Forall2_diag, Forall_forall. intros g _.
      apply graph_preserved_refl.
    + intros g g' Hg Hg' _. simplify_eq. unfold graph_preserved, withRefs; simpl.
      split_and!; [done..|]. apply Forall2_alter_r.
      * apply Forall_Forall2_diag, Forall_forall. intros r0 _.
        apply ref_filled_refl.
      * intros r0 r0' Hr0 Hr0' _. simplify_eq.
        unfold getRef in Hget. rewrite Hg in Hget. simpl in Hget. by simplify_eq.
  - subst. apply Forall_Forall2_diag, Forall_forall. intros g _.
    apply graph_preserved_refl.
Qed.

Lemma allDecoded_snoc (fsys : FileSystem) (decoded : Memory) (path : string)
    (g : Output) :
  allDecoded fsys decoded -> loadGraph fsys path = Ok g ->
  allDecoded fsys (decoded ++ [g]).
Proof.
  intros Hall Hload. apply Forall_app. split; [done|].
  apply Forall_singleton. exists path. by apply loadGraph_Ok.
Qed.

Lemma getRef_last (mem : Memory) (g : Output) (pre : list Ref) (r : Ref)
    (post : list Ref) :
  Refs g = pre ++ r :: post ->
  getRef (mem ++ [g]) {| graphIx := length mem; refIx := length pre |} = Some r.
Proof.
  intros Hrefs. unfold getRef; simpl.
  rewrite list_lookup_middle by done. simpl.
  rewrite Hrefs. by apply list_lookup_middle.
Qed.

(** The scan leaves in memory the graphs it decoded, with at most the ref
    it returns changed, and that one only by filling in empty fields. *)
Lemma scanUnits_memory (fsys : FileSystem) (buildStore : RepositoryStore)
    (repo : Repo) (file : string) (p : Z) (units : list SourceUnit)
    (mem0 : Memory) (res : result (option Addr)) (mem : Memory) :
  allDecoded fsys mem0 ->
  scanUnits E fsys buildStore repo file p units mem0 = (res, mem) ->
  exists decoded,
    allDecoded fsys decoded /\
    filledAt (match res with Ok oa => oa | Fail _ => None end) decoded mem.
Proof.
  revert mem0. induction units as [|u rest IH]; intros mem0 Hdec Hscan.
  - simpl in Hscan. injection Hscan as <- <-. by exists mem0.
  - rewrite scanUnits_step in Hscan.
    destruct (loadGraph fsys (graphFileOf E buildStore repo u)) as [g|e] eqn:Hload.
    + destruct (first_covered file p (Refs g))
        as [Hnone|(pre & r & post & Hrefs & Hpre & Hr)].
      * rewrite scanRefs_none in Hscan by done.
        eapply IH; [|done]. by eapply allDecoded_snoc.
      * rewrite Hrefs, scanRefs_first in Hscan by done. simpl in Hscan.
        injection Hscan as <- <-. exists (mem0 ++ [g]).
        split; [by eapply allDecoded_snoc|].
        simpl. exists r, (defaultDefUnitType u (defaultDefUnit u r)).
        split_and!.
        -- by eapply getRef_last.
        -- eapply ref_filled_trans;
             [apply defaultDefUnit_filled | apply defaultDefUnitType_filled].
        -- rewrite setRef_setRef. eapply setRef_ext; [by eapply getRef_last|done].
    + injection Hscan as <- <-. by exists mem0.
Qed.

(** The ref at the address the scan returns covers the position. *)
Lemma scanUnits_covered (fsys : FileSystem) (buildStore : RepositoryStore)
    (repo : Repo) (file : string) (p : Z) (units : list SourceUnit)
    (mem0 : Memory) (a : Addr) (mem : Memory) :
  scanUnits E fsys buildStore repo file p units mem0 = (Ok (Some a), mem) ->
  exists r, getRef mem a = Some r /\ covered file p r.
Proof.
  revert mem0. induction units as [|u rest IH]; intros mem0 Hscan.
  - done.
  - rewrite scanUnits_step in Hscan.
    destruct (loadGraph fsys (graphFileOf E buildStore repo u)) as [g|e];
      [|done].
    destruct (first_covered file p (Refs g))
      as [Hnone|(pre & r & post & Hrefs & Hpre & Hr)].
    + rewrite scanRefs_none in Hscan by done. by eapply IH.
    + rewrite Hrefs, scanRefs_first in Hscan by done. simpl in Hscan.
      injection Hscan as <- <-.
      exists (defaultDefUnitType u (defaultDefUnit u r)). split.
      * rewrite setRef_setRef, getRef_setRef_eq.
        by rewrite (getRef_last mem0 g pre r post Hrefs).
      * destruct (ref_filled_trans _ _ _ (defaultDefUnit_filled u r)
                    (defaultDefUnitType_filled u (defaultDefUnit u r)))
          as (Hf & Hs & He & _).
        unfold covered in *. by rewrite Hf, Hs, He.
Qed.

Lemma filledAt_getRef (a : Addr) (decoded mem : Memory) :
  filledAt (Some a) decoded mem -> is_Some (getRef mem a).
Proof.
  intros (r & r' & Hget & _ & ->). rewrite getRef_setRef_eq, Hget. by eexists.
Qed.

Lemma filledAt_setRef (a : Addr) (decoded mem : Memory) (f : Ref -> Ref) :
  (forall r, ref_filled r (f r)) ->
  filledAt (Some a) decoded mem -> filledAt (Some a) decoded (setRef mem a f).
Proof.
  intros Hf (r & r' & Hget & Hfill & ->). exists r, (f r'). split_and!.
  - done.
  - eapply ref_filled_trans; [done | apply Hf].
  - rewrite setRef_setRef. by eapply setRef_ext.
Qed.

Lemma filledAt_snoc (a : Addr) (decoded mem : Memory) (g : Output) :
  filledAt (Some a) decoded mem ->
  filledAt (Some a) (decoded ++ [g]) (mem ++ [g]).
Proof.
  intros (r & r' & Hget & Hfill & ->). exists r, r'.
  pose proof (getRef_lt _ _ _ Hget) as Hlt. split_and!.
  - by rewrite getRef_app_l.
  - done.
  - by rewrite setRef_app_l.
Qed.

(** The loop of [list] over the candidate units. *)
Lemma listLoop_step (fsys : FileSystem) (buildStore : RepositoryStore)
    (repo : Repo) (file : string) (u : SourceUnit) (rest : list SourceUnit)
    (refs : list Ref) :
  listLoop E fsys buildStore repo file (u :: rest) refs =
  match loadGraph fsys (graphFileOf E buildStore repo u) with
  | Fail e => Fail e
  | Ok g =>
      listLoop E fsys buildStore repo file rest (collectRefs file (Refs g) refs)
  end.
Proof.
  simpl. unfold loadGraph.
  destruct (fs_Open fsys _) as [f|e]; simpl; [|done].
  by destruct (decodeOutput f).
Qed.

Lemma collectRefs_filter (file : string) (grefs refs : list Ref) :
  collectRefs file grefs refs =
  refs ++ filter (fun ref => file = Ref_File ref) grefs.
Proof.
  revert refs. induction grefs as [|ref rest IH]; intros refs; simpl.
  - by rewrite app_nil_r.
  - rewrite filter_cons. case_bool_decide.
    + rewrite IH, decide_True by done. by rewrite <- app_assoc.
    + rewrite IH, decide_False by done. done.
Qed.

Lemma listLoop_loaded (fsys : FileSystem) (buildStore : RepositoryStore)
    (repo : Repo) (file : string) (units : list SourceUnit) (gs : list Output)
    (refs : list Ref) :
  Forall2 (loadsGraphOf E fsys buildStore repo) units gs ->
  listLoop E fsys buildStore repo file units refs =
  Ok (refs ++
      mjoin ((fun g => filter (fun ref => file = Ref_File ref) (Refs g)) <$> gs)).
Proof.
  intros Hload. revert refs.
  induction Hload as [|u g units' gs' Hu _ IH]; intros refs.
  - simpl. by rewrite app_nil_r.
  - rewrite listLoop_step. apply loadGraph_Ok in Hu. rewrite Hu.
    rewrite IH, collectRefs_filter. simpl. by rewrite <- app_assoc.
Qed.

Lemma listLoop_first_failure (fsys : FileSystem)
    (buildStore : RepositoryStore) (repo : Repo) (file : string)
    (us1 : list SourceUnit) (gs1 : list Output) (u : SourceUnit) (e : error)
    (us2 : list SourceUnit) (refs : list Ref) :
  Forall2 (loadsGraphOf E fsys buildStore repo) us1 gs1 ->
  loadGraph fsys (graphFileOf E buildStore repo u) = Fail e ->
  listLoop E fsys buildStore repo file (us1 ++ u :: us2) refs = Fail e.
Proof.
  intros Hload Hfail. revert refs.
  induction Hload as [|u1 g1 us1' gs1' Hu1 _ IH]; intros refs.
  - simpl app. by rewrite listLoop_step, Hfail.
  - simpl app. rewrite listLoop_step. apply loadGraph_Ok in Hu1. rewrite Hu1.
    apply IH.
Qed.

Lemma listLoop_isOk (fsys : FileSystem) (buildStore : RepositoryStore)
    (repo : Repo) (file : string) (units : list SourceUnit)
    (refs : list Ref) :
  isOk (listLoop E fsys buildStore repo file units refs) = true <->
  Forall (fun u => isOk (loadGraph fsys (graphFileOf E buildStore repo u)) = true)
         units.
Proof.
  revert refs. induction units as [|u rest IH]; intros refs.
  - simpl. split; [by constructor | done].
  - rewrite listLoop_step, Forall_cons.
    destruct (loadGraph fsys (graphFileOf E buildStore repo u)) as [g|e]; simpl.
    + rewrite IH. tauto.
    + split; [done | by intros [? _]].
Qed.

End MemoryInvariant.

(** ** [describe]: the ref under the cursor *)

Section DescribeClaims.

Context (E : Env).

(** C1. [describe] matches a ref exactly when the ref is in the query file
    and [Start <= offset <= End], both bounds included.  Among the refs of
    the candidate units it takes the first one in unit order, then ref
    order; the scan stops there: the graphs of the later units are not
    even loaded, and a later ref that also covers the offset, narrower or
    not, is not considered. *)
Theorem describe_first_match (fsys : FileSystem) (buildStore : RepositoryStore)
    (repo : Repo) (file : string) (p : Z)
    (us1 : list SourceUnit) (gs1 : list Output) (u : SourceUnit) (g : Output)
    (pre : list Ref) (r : Ref) (post : list Ref) (us2 : list SourceUnit) :
  Forall2 (loadsGraphOf E fsys buildStore repo) us1 gs1 ->
  Forall (fun g1 => Forall (fun r1 => ~ covered file p r1) (Refs g1)) gs1 ->
  loadsGraphOf E fsys buildStore repo u g ->
  Refs g = pre ++ r :: post ->
  Forall (fun r1 => ~ covered file p r1) pre ->
  covered file p r ->
  let a := {| graphIx := length gs1; refIx := length pre |} in
  let matched := defaultDefUnitType u (defaultDefUnit u r) in
  (forall r0, covers file p r0 = true <->
              Ref_File r0 = file /\ (Start r0 <= p <= End_ r0)%Z) /\
  scanUnits E fsys buildStore repo file p (us1 ++ u :: us2) [] =
    (Ok (Some a), gs1 ++ [withRefs g (pre ++ matched :: post)]) /\
  getRef (gs1 ++ [withRefs g (pre ++ matched :: post)]) a = Some matched /\
  ref_filled r matched /\
  (forall units gs,
     Forall2 (loadsGraphOf E fsys buildStore repo) units gs ->
     (exists a' mem', scanUnits E fsys buildStore repo file p units [] =
                      (Ok (Some a'), mem')) <->
     Exists (fun g' => Exists (covered file p) (Refs g')) gs).
Proof.
  intros Hload Hnone Hu Hrefs Hpre Hr a matched. split_and!.
  - intros r0. apply covers_iff.
  - by rewrite (scanUnits_first E fsys buildStore repo file p us1 gs1 u g pre r post).
  - subst a. apply (getRef_last gs1 (withRefs g (pre ++ matched :: post))
                      pre matched post). done.
  - eapply ref_filled_trans;
      [apply defaultDefUnit_filled | apply defaultDefUnitType_filled].
  - intros units gs Hall. by apply scanUnits_Some_iff.
Qed.

(** C5. When the prologue of [describe] succeeds, the graphs of the
    candidate units load and none of their refs covers the position, the
    command prints the empty object [{}] on standard output, starts no
    remote request and returns no error. *)
Theorem describe_no_ref_empty (c : APIDescribeCmd) (w w1 : World)
    (file : string) (repo : Repo) (buildStore : RepositoryStore)
    (units : list SourceUnit) (gs : list Output) :
  openAndBuild E (File_ c) w = (Ok (file, repo, buildStore, units), w1) ->
  Forall2 (loadsGraphOf E (fs w1) buildStore repo) units gs ->
  Forall (fun g => Forall (fun r => ~ covered file (StartByte c) r) (Refs g))
         gs ->
  APIDescribeCmd_Execute E c w = (None, emit (EvPrintln "{}") w1, gs) /\
  newEvents w1 (snd (fst (APIDescribeCmd_Execute E c w))) [EvPrintln "{}"].
Proof.
  intros Hpro Hload Hnone.
  assert (Hrun : APIDescribeCmd_Execute E c w =
                 (None, emit (EvPrintln "{}") w1, gs)).
  { eapply describe_not_found; [done|].
    by rewrite (scanUnits_none E _ _ _ _ _ units gs). }
  split; [done|]. by rewrite Hrun.
Qed.

(** C3. The ref that [describe] matched in the source unit [u] has its
    empty [DefUnit] and [DefUnitType] replaced by the name and type of
    [u], the unit being scanned, and its empty [DefRepo] by the URI of the
    current repository.  The locator is built from these values: every
    remote request carries it, a ref into another repository is resolved
    remotely with it, and local resolution loads the graph of the unit it
    names. *)
Theorem describe_locator_defaults (c : APIDescribeCmd) (w w1 : World)
    (file : string) (repo : Repo) (buildStore : RepositoryStore)
    (us1 : list SourceUnit) (gs1 : list Output) (u : SourceUnit) (g : Output)
    (pre : list Ref) (r : Ref) (post : list Ref) (us2 : list SourceUnit) :
  openAndBuild E (File_ c) w =
    (Ok (file, repo, buildStore, us1 ++ u :: us2), w1) ->
  Forall2 (loadsGraphOf E (fs w1) buildStore repo) us1 gs1 ->
  Forall (fun g1 => Forall (fun r1 => ~ covered file (StartByte c) r1) (Refs g1))
         gs1 ->
  loadsGraphOf E (fs w1) buildStore repo u g ->
  Refs g = pre ++ r :: post ->
  Forall (fun r1 => ~ covered file (StartByte c) r1) pre ->
  covered file (StartByte c) r ->
  let loc := locatorOf repo u r in
  let a := {| graphIx := length gs1; refIx := length pre |} in
  let target :=
    graphFileOf E buildStore repo
      {| Name := spec_Unit loc; Type_ := spec_UnitType loc; Files := [] |} in
  exists err w' mem evs,
    APIDescribeCmd_Execute E c w = (err, w', mem) /\
    newEvents w1 w' evs /\
    (* the fields are filled in through the pointer *)
    (exists r', getRef mem a = Some r' /\ specOf r' = loc) /\
    (* every goroutine is given the locator *)
    (forall t, EvGo t ∈ evs -> taskSpec t = loc) /\
    (* a def of another repository is asked for with it *)
    (spec_Repo loc <> URI repo ->
       evs = (EvGo <$> tasksOf None (NoExamples c) loc) ++
             [EvEncodeResp (joined E None (NoExamples c) loc)]) /\
    (* a def of this repository is looked up in the unit it names *)
    (spec_Repo loc = URI repo ->
       match loadGraph (fs w1) target with
       | Ok g' => last mem = Some g'
       | Fail e => err = Some e /\ evs = []
       end).
Proof.
  intros Hpro Hload Hnone Hu Hrefs Hpre Hr loc a target.
  set (matched := defaultDefUnitType u (defaultDefUnit u r)).
  set (mem0 := gs1 ++ [withRefs g (pre ++ matched :: post)]).
  assert (Hscan : scanUnits E (fs w1) buildStore repo file (StartByte c)
                    (us1 ++ u :: us2) [] = (Ok (Some a), mem0)).
  { by rewrite (scanUnits_first E _ _ _ _ _ us1 gs1 u g pre r post). }
  assert (Hget : getRef mem0 a = Some matched).
  { apply (getRef_last gs1 (withRefs g (pre ++ matched :: post))
             pre matched post). done. }
  pose proof (describe_matched E c w w1 file repo buildStore _ a mem0 matched
                Hpro Hscan Hget) as Hrun.
  cbv zeta in Hrun.
  assert (Hloc : specOf (defaultDefRepo repo matched) = loc)
    by apply specOf_defaulted.
  set (r' := defaultDefRepo repo matched) in *.
  set (mem1 := setRef mem0 a (defaultDefRepo repo)) in *.
  assert (Hget1 : getRef mem1 a = Some r').
  { subst mem1. by rewrite getRef_setRef_eq, Hget. }
  assert (Hrepo : DefRepo r' = spec_Repo loc) by by rewrite <- Hloc.
  assert (Htarget : graphFileOf E buildStore repo
            {| Name := DefUnit r'; Type_ := DefUnitType r'; Files := [] |}
          = target).
  { subst target. by rewrite <- Hloc. }
  assert (Hpath : DefPath r' = spec_Path loc) by by rewrite <- Hloc.
  rewrite Hloc in Hrun.
  case_bool_decide as Hcur.
  - (* the def is in the current repository *)
    rewrite localDef_unfold, Htarget, Hpath in Hrun.
    destruct (loadGraph (fs w1) target) as [g'|e] eqn:Hg'.
    + eexists _, _, _, _. split; [exact Hrun|]. split_and!.
      * apply remote_events.
      * exists r'. split; [|done].
        rewrite getRef_app_l; [done|]. by eapply getRef_lt.
      * intros t Hin. eapply tasksOf_spec, EvGo_elem_of; [exact Hin|done].
      * intros Hne. by rewrite Hrepo in Hcur.
      * intros _. by rewrite last_snoc.
    + exists (Some e), w1, mem1, []. split; [exact Hrun|]. split_and!.
      * unfold newEvents. by rewrite app_nil_r.
      * by exists r'.
      * intros t Hin. by apply elem_of_nil in Hin.
      * intros Hne. by rewrite Hrepo in Hcur.
      * done.
  - (* the def is in another repository *)
    eexists _, _, _, _. split; [exact Hrun|]. split_and!.
    + apply remote_events.
    + by exists r'.
    + intros t Hin. eapply tasksOf_spec, EvGo_elem_of; [exact Hin|done].
    + done.
    + intros Heq. by rewrite Hrepo in Hcur.
Qed.

End DescribeClaims.

(** ** [describe]: local resolution and the decoded records *)

Section ResolutionClaims.

Context (E : Env).

(** C2, as the code has it.  For a matched ref whose (defaulted) target
    repository is the current one, [describe] loads the graph of the
    target unit.  If it loads and has a def with the path of the ref, the
    first such def is returned, with its file replaced by the join of the
    repository root and the file, and no remote def request is made.  If
    it loads and has no such def, the command does not fail: the def is
    asked from the remote client.  If the graph does not open or decode,
    the command stops with that error, before any remote request. *)
Theorem describe_local_resolution (c : APIDescribeCmd) (w w1 : World)
    (file : string) (repo : Repo) (buildStore : RepositoryStore)
    (units : list SourceUnit) (a : Addr) (mem : Memory) (r1 : Ref) :
  openAndBuild E (File_ c) w = (Ok (file, repo, buildStore, units), w1) ->
  scanUnits E (fs w1) buildStore repo file (StartByte c) units [] =
    (Ok (Some a), mem) ->
  getRef mem a = Some r1 ->
  let r := defaultDefRepo repo r1 in
  DefRepo r = URI repo ->
  let target :=
    graphFileOf E buildStore repo
      {| Name := DefUnit r; Type_ := DefUnitType r; Files := [] |} in
  let mem1 := setRef mem a (defaultDefRepo repo) in
  let examples :=
    if NoExamples c then []
    else fst (Defs_ListExamples E (specOf r) examplesOpt) in
  let goExamples :=
    if NoExamples c then []
    else [EvGo (TaskListExamples (specOf r) examplesOpt)] in
  (* the def is there *)
  (forall g dpre d dpost,
     loadsGraph (fs w1) target g ->
     Defs g = dpre ++ d :: dpost ->
     Forall (fun d' => Def_Path d' <> DefPath r) dpre ->
     Def_Path d = DefPath r ->
     let resp :=
       {| resp_Def :=
            Some {| sg_Def :=
                      withFile d (filepath_Join E (RootDir repo) (Def_File d));
                    DocHTML := docHTMLOf (Docs g) (DefPath r) "" |};
          resp_Examples := examples |} in
     APIDescribeCmd_Execute E c w =
     (Encode_Resp E resp,
      emit (EvEncodeResp resp) (emitAll goExamples w1), mem1 ++ [g])) /\
  (* the graph has no def with the path *)
  (forall g,
     loadsGraph (fs w1) target g ->
     Forall (fun d' => Def_Path d' <> DefPath r) (Defs g) ->
     let resp :=
       {| resp_Def := fst (Defs_Get E (specOf r) getOpt);
          resp_Examples := examples |} in
     APIDescribeCmd_Execute E c w =
     (Encode_Resp E resp,
      emit (EvEncodeResp resp)
        (emitAll (EvGo (TaskGet (specOf r) getOpt) :: goExamples) w1),
      mem1 ++ [g])) /\
  (* the graph does not open *)
  (forall e,
     fs_Open (fs w1) target = Fail e ->
     APIDescribeCmd_Execute E c w = (Some e, w1, mem1)) /\
  (* the graph does not decode *)
  (forall f e,
     fs_Open (fs w1) target = Ok f -> decodeOutput f = Fail e ->
     APIDescribeCmd_Execute E c w = (Some (Errorf target e), w1, mem1)).
Proof.
  intros Hpro Hscan Hget r Hcur target mem1 examples goExamples.
  pose proof (describe_matched E c w w1 file repo buildStore units a mem r1
                Hpro Hscan Hget) as Hrun.
  cbv zeta in Hrun. fold r mem1 in Hrun.
  rewrite bool_decide_eq_true_2 in Hrun by done.
  rewrite localDef_unfold in Hrun. fold target in Hrun.
  split_and!.
  - intros g dpre d dpost Hg Hdefs Hpre Hd resp.
    apply loadGraph_Ok in Hg. rewrite Hg in Hrun.
    rewrite Hdefs, findDef_first in Hrun by done.
    rewrite Hrun. subst resp examples goExamples.
    unfold joined, tasksOf. by destruct (NoExamples c).
  - intros g Hg Hnone resp.
    apply loadGraph_Ok in Hg. rewrite Hg in Hrun.
    rewrite findDef_none in Hrun by done.
    rewrite Hrun. subst resp examples goExamples.
    unfold joined, tasksOf. by destruct (NoExamples c).
  - intros e He. unfold loadGraph in Hrun. by rewrite He in Hrun.
  - intros f e Hf He. unfold loadGraph in Hrun. rewrite Hf in Hrun.
    simpl in Hrun. by rewrite He in Hrun.
Qed.

Lemma describe_leaves_filled (c : APIDescribeCmd) (w : World) :
  exists decoded oa,
    allDecoded (fs (snd (fst (APIDescribeCmd_Execute E c w)))) decoded /\
    filledAt oa decoded (snd (APIDescribeCmd_Execute E c w)) /\
    (forall a, oa = Some a -> scanned E c w a).
Proof.
  destruct (openAndBuild E (File_ c) w)
    as [[[[[file repo] buildStore] units]|e] w1] eqn:Hpro.
  - destruct (scanUnits E (fs w1) buildStore repo file (StartByte c) units [])
      as [res mem] eqn:Hscan.
    destruct (scanUnits_memory E _ _ _ _ _ _ [] res mem (Forall_nil_2 _) Hscan)
      as (decoded & Hdec & Hfill).
    destruct res as [[a|]|e].
    + destruct (filledAt_getRef a decoded mem Hfill) as [r1 Hget].
      assert (Hscanned : forall a', Some a = Some a' -> scanned E c w a').
      { intros a' [= <-]. exists file, repo, buildStore, units, w1, mem.
        split_and!; [done..|].
        by apply (scanUnits_covered E (fs w1) buildStore repo file
                    (StartByte c) units []). }
      rewrite (describe_matched E c w w1 file repo buildStore units a mem r1)
        by done.
      cbv zeta.
      pose proof (filledAt_setRef a decoded mem (defaultDefRepo repo)
                    (defaultDefRepo_filled repo) Hfill) as Hfill1.
      case_bool_decide.
      * rewrite localDef_unfold.
        destruct (loadGraph (fs w1) _) as [g|e] eqn:Hg; simpl.
        -- exists (decoded ++ [g]), (Some a).
           split_and!; [by eapply allDecoded_snoc | by apply filledAt_snoc | done].
        -- by exists decoded, (Some a).
      * simpl. by exists decoded, (Some a).
    + rewrite (describe_not_found E c w w1 file repo buildStore units mem)
        by done.
      simpl. by exists decoded, None.
    + rewrite (describe_scan_failure E c w w1 file repo buildStore units e mem)
        by done.
      simpl. by exists decoded, None.
  - rewrite (describe_prologue_failure E c w w1 e) by done. simpl.
    exists [], None. split_and!; [apply Forall_nil_2 | done..].
Qed.

Lemma list_loaded (c : APIListCmd) (w w1 : World) (file : string)
    (repo : Repo) (buildStore : RepositoryStore) (units : list SourceUnit)
    (gs : list Output) :
  openAndBuild E (list_File c) w = (Ok (file, repo, buildStore, units), w1) ->
  Forall2 (loadsGraphOf E (fs w1) buildStore repo) units gs ->
  let refs :=
    mjoin ((fun g => filter (fun ref => file = Ref_File ref) (Refs g)) <$> gs) in
  APIListCmd_Execute E c w = (Encode_Refs E refs, emit (EvEncodeRefs refs) w1).
Proof.
  intros Hpro Hload refs. unfold APIListCmd_Execute. rewrite Hpro.
  by rewrite (listLoop_loaded E _ _ _ _ units gs).
Qed.

(** C8, as the code has it.  [describe] writes to at most one decoded
    record: the ref its scan returned, which covers the position, and
    whose empty [DefUnit], [DefUnitType] and [DefRepo] it fills in through
    the pointer.  Every other ref, and every def and doc, is at the end of
    the command as it was decoded (the def of the response is a copy).
    [list] writes to none: the refs it encodes are the decoded refs of the
    query file. *)
Theorem describe_memory_filled (c : APIDescribeCmd) (w : World) :
  (exists decoded oa,
     allDecoded (fs (snd (fst (APIDescribeCmd_Execute E c w)))) decoded /\
     filledAt oa decoded (snd (APIDescribeCmd_Execute E c w)) /\
     (forall a, oa = Some a -> scanned E c w a) /\
     Forall2 graph_preserved decoded (snd (APIDescribeCmd_Execute E c w))) /\
  (forall (cl : APIListCmd) (w1 : World) (file : string) (repo : Repo)
          (buildStore : RepositoryStore) (units : list SourceUnit)
          (gs : list Output),
     openAndBuild E (list_File cl) w =
       (Ok (file, repo, buildStore, units), w1) ->
     Forall2 (loadsGraphOf E (fs w1) buildStore repo) units gs ->
     exists refs,
       APIListCmd_Execute E cl w =
         (Encode_Refs E refs, emit (EvEncodeRefs refs) w1) /\
       forall r, r ∈ refs <->
                 Ref_File r = file /\ exists g, g ∈ gs /\ r ∈ Refs g).
Proof.
  split.
  - destruct (describe_leaves_filled c w) as (decoded & oa & Hdec & Hfill & Hoa).
    exists decoded, oa. split_and!; [done | done | exact Hoa |].
    apply filled_memory_preserved. by exists oa.
  - intros cl w1 file repo buildStore units gs Hpro Hload.
    eexists. split; [by eapply list_loaded|].
    intros r. rewrite list_elem_of_join. split.
    + intros (l & Hr & Hl). apply list_elem_of_fmap in Hl as (g & -> & Hg).
      apply list_elem_of_filter in Hr as [<- Hr]. eauto.
    + intros (<- & g & Hg & Hr).
      exists (filter (fun ref => Ref_File r = Ref_File ref) (Refs g)). split.
      * by apply list_elem_of_filter.
      * apply list_elem_of_fmap. by exists g.
Qed.

End ResolutionClaims.

(** ** Malformed artifacts, and units listed once *)

Section UnitClaims.

Context (E : Env).

(** C4, as the code has it.  A stored artifact that does not open or
    decode is fatal for the whole query.  [getSourceUnitsWithFile]
    succeeds exactly when every manifest of the commit loads, and
    otherwise returns the error of the first one that does not (a decoding
    error with the file name in front); no unit is skipped.  Likewise
    [list] stops at the first candidate unit whose graph does not load,
    returns that error and encodes nothing. *)
Theorem malformed_artifact_aborts (fsys : FileSystem)
    (buildStore : RepositoryStore) (repo : Repo) :
  (forall filename,
     isOk (getSourceUnitsWithFile E fsys buildStore repo filename) = true <->
     Forall (fun unitFile => isOk (loadUnit fsys unitFile) = true)
            (unitFilesOf E fsys buildStore repo)) /\
  (forall filename before us unitFile after e,
     unitFilesOf E fsys buildStore repo = before ++ unitFile :: after ->
     Forall2 (loadsUnit fsys) before us ->
     loadUnit fsys unitFile = Fail e ->
     getSourceUnitsWithFile E fsys buildStore repo filename = Fail e) /\
  (forall path f e,
     fs_Open fsys path = Ok f ->
     (decodeSourceUnit f = Fail e -> loadUnit fsys path = Fail (Errorf path e)) /\
     (decodeOutput f = Fail e -> loadGraph fsys path = Fail (Errorf path e))) /\
  (forall c w w1 file us1 gs1 u us2 e,
     openAndBuild E (list_File c) w =
       (Ok (file, repo, buildStore, us1 ++ u :: us2), w1) ->
     Forall2 (loadsGraphOf E (fs w1) buildStore repo) us1 gs1 ->
     loadGraph (fs w1) (graphFileOf E buildStore repo u) = Fail e ->
     APIListCmd_Execute E c w = (Some e, w1)).
Proof.
  split_and!.
  - intros filename. rewrite getSourceUnitsWithFile_unfold.
    apply unitsLoop_isOk.
  - intros filename before us unitFile after e Hfiles Hload Hfail.
    rewrite getSourceUnitsWithFile_unfold, Hfiles.
    by apply (unitsLoop_first_failure E fsys before us).
  - intros path f e Hopen. unfold loadUnit, loadGraph. rewrite Hopen; simpl.
    split; by intros ->.
  - intros c w w1 file us1 gs1 u us2 e Hpro Hload Hfail.
    unfold APIListCmd_Execute. rewrite Hpro.
    by rewrite (listLoop_first_failure E _ _ _ _ us1 gs1 u e us2).
Qed.

(** C10. A unit is appended at most once, however often the query file
    occurs in its file list: the scan of the files stops at the first
    occurrence.  The units returned are a sublist of the decoded
    manifests, one position each. *)
Theorem unit_listed_once (u : SourceUnit) (files : list string)
    (filename : string) (units : list SourceUnit) :
  (filename ∈ filepath_Clean E <$> files ->
   appendIfContains E u files filename units = units ++ [u]) /\
  (filename ∉ filepath_Clean E <$> files ->
   appendIfContains E u files filename units = units) /\
  (forall before after,
     filepath_Clean E <$> files = before ++ filename :: after ->
     appendIfContains E u files filename units = units ++ [u]) /\
  (forall fsys buildStore repo us,
     Forall2 (loadsUnit fsys) (unitFilesOf E fsys buildStore repo) us ->
     exists found,
       getSourceUnitsWithFile E fsys buildStore repo filename = Ok found /\
       found `sublist_of` us /\
       length found <= length (unitFilesOf E fsys buildStore repo) /\
       (NoDup us -> NoDup found)).
Proof.
  split_and!.
  - intros Hin. rewrite appendIfContains_spec. by rewrite decide_True.
  - intros Hin. rewrite appendIfContains_spec, decide_False by done.
    by rewrite app_nil_r.
  - intros before after Hsplit. rewrite appendIfContains_spec.
    rewrite decide_True; [done|]. rewrite Hsplit.
    apply elem_of_app. right. apply list_elem_of_here.
  - intros fsys buildStore repo us Hload.
    exists (filter (containsFile E (filepath_Clean E filename)) us).
    split_and!.
    + rewrite getSourceUnitsWithFile_unfold.
      by rewrite (unitsLoop_loaded E _ _ us).
    + apply sublist_filter.
    + rewrite (Forall2_length _ _ _ Hload). apply length_filter.
    + apply NoDup_filter.
Qed.

End UnitClaims.

(** ** The goroutines of [describe] *)

Section GoroutineFacts.

Context (E : Env).
Context (noExamples : bool) (spec : DefSpec) (def : option sgDef).

#[local] Abbreviation step := (conc_step E noExamples spec).
#[local] Abbreviation reachable := (conc_reachable E noExamples spec def).
#[local] Abbreviation inv := (conc_inv E noExamples spec def).

#[local] Ltac step_cases Hstep :=
  destruct Hstep as [Hstep | [Hstep | Hstep]];
  [ unfold main_step in Hstep | unfold get_step in Hstep
  | unfold ex_step in Hstep ].

#[local] Ltac inv_goal :=
  split; simpl in *;
  repeat match goal with
         | H : _ <-> _ |- _ => destruct H
         end;
  try done; try lia;
  try (split; intros; try done; try lia);
  try (intuition (first [done | congruence | lia])).

Lemma conc_step_inv (s s' : Conc) : inv s -> step s s' -> inv s'.
Proof.
  intros [Hwg Hget Hex Hjoin Hdef Hexs] Hstep.
  destruct s as [p n gt et [rd re]]; simpl in *.
  step_cases Hstep; simpl in Hstep.
  - destruct p; try done.
    + destruct rd; simplify_eq; destruct gt, et, def; inv_goal.
    + destruct noExamples; simpl in Hstep; simplify_eq; destruct gt, et; inv_goal.
    + case_bool_decide; [|done]. simplify_eq. destruct gt, et; inv_goal.
  - destruct gt; try done; simplify_eq; destruct p, et; inv_goal.
  - destruct et; try done; simplify_eq; destruct p, gt; inv_goal.
Qed.

Lemma conc_init_inv : inv (conc_init def).
Proof. inv_goal. Qed.

Lemma conc_reachable_inv (s : Conc) : reachable s -> inv s.
Proof.
  unfold conc_reachable. intros Hreach.
  revert s Hreach. apply (rtc_ind_r (R := step) (fun s0 => inv s0)).
  - apply conc_init_inv.
  - intros y z _ Hstep IH. by eapply conc_step_inv.
Qed.

Lemma conc_inv_joined (s : Conc) :
  inv s -> pc s = Joined ->
  resp s = joined E def noExamples spec /\
  (getTask s = Finished <-> def = None) /\
  (getTask s = NotStarted <-> def <> None) /\
  (exTask s = Finished <-> noExamples = false) /\
  (exTask s = NotStarted <-> noExamples = true).
Proof.
  intros [Hwg Hget Hex Hjoin Hdef Hexs] Hpc.
  destruct s as [p n gt et [rd re]]; simpl in *. subst p.
  specialize (Hjoin eq_refl). subst n. unfold joined.
  destruct gt, et; simpl in *; try lia;
    destruct def, noExamples; simpl in *; subst;
    repeat match goal with
           | H : _ <-> _ |- _ => destruct H
           end;
    split_and!; try done;
    try (split; intros; try done);
    try (exfalso; intuition (first [done | congruence])).
Qed.

Lemma conc_joined_final (s s' : Conc) : inv s -> pc s = Joined -> ~ step s s'.
Proof.
  intros [Hwg Hget Hex Hjoin Hdef Hexs] Hpc Hstep.
  destruct s as [p n gt et [rd re]]; simpl in *. subst p.
  specialize (Hjoin eq_refl). subst n.
  step_cases Hstep; simpl in Hstep; [done| |].
  - destruct gt; simpl in *; try done; lia.
  - destruct et; simpl in *; try done; lia.
Qed.

Lemma conc_progress (s : Conc) :
  inv s -> pc s <> Joined -> exists s', step s s'.
Proof.
  intros [Hwg Hget Hex Hjoin Hdef Hexs] Hpc.
  destruct s as [p n gt et [rd re]]; simpl in *.
  destruct p; [| | |done].
  - destruct rd; eexists; left; unfold main_step; simpl; done.
  - destruct noExamples; eexists; left; unfold main_step; simpl; done.
  - destruct gt;
      try (eexists; right; left; unfold get_step; simpl; done);
      destruct et;
      try (eexists; right; right; unfold ex_step; simpl; done);
      (eexists; left; unfold main_step; simpl;
       rewrite bool_decide_eq_true_2; [done | by subst]).
Qed.

Lemma conc_step_fuel (s s' : Conc) :
  inv s -> step s s' -> conc_fuel s' < conc_fuel s.
Proof.
  intros [Hwg Hget Hex Hjoin Hdef Hexs] Hstep.
  destruct s as [p n gt et [rd re]]; simpl in *. unfold conc_fuel.
  step_cases Hstep; simpl in Hstep.
  - destruct p; try done.
    + destruct rd; simplify_eq; simpl; [lia|].
      destruct gt; simpl; try lia;
        exfalso; destruct Hget as [Hget _]; by destruct Hget.
    + destruct noExamples; simpl in Hstep; simplify_eq; simpl; [lia|].
      destruct et; simpl; try lia;
        exfalso; destruct Hex as [Hex _]; by destruct Hex as (_ & ? & _).
    + case_bool_decide; [|done]. simplify_eq. simpl. lia.
  - destruct gt; try done; simplify_eq; simpl; lia.
  - destruct et; try done; simplify_eq; simpl; lia.
Qed.

Lemma conc_run_reachable (sched : list Thread) (s : Conc) :
  rtc step s (conc_run E noExamples spec sched s).
Proof.
  revert s. induction sched as [|t rest IH]; intros s; simpl; [done|].
  destruct (thread_step E noExamples spec t s) as [s'|] eqn:Ht; simpl; [|done].
  eapply rtc_l; [|apply IH].
  destruct t; simpl in Ht; unfold conc_step; auto.
Qed.

(** From every state of a run the program runs on to the end of the wait. *)
Lemma conc_completes (n : nat) (s : Conc) :
  conc_fuel s <= n -> inv s -> exists s', rtc step s s' /\ pc s' = Joined.
Proof.
  revert s. induction n as [|n IH]; intros s Hle Hinv;
    (destruct (decide (pc s = Joined)) as [Hpc|Hpc]; [by exists s|]).
  - exfalso. unfold conc_fuel in Hle. destruct (pc s); simpl in Hle; [lia..|done].
  - destruct (conc_progress s Hinv Hpc) as [s1 Hstep].
    pose proof (conc_step_fuel s s1 Hinv Hstep) as Hlt.
    destruct (IH s1) as (s' & Hrtc & Hend);
      [lia | by eapply conc_step_inv |].
    exists s'. split; [by eapply rtc_l | done].
Qed.

(** No run is longer than nine steps. *)
Lemma conc_bounded (n : nat) (s : Conc) :
  nsteps step n (conc_init def) s -> inv s /\ n + conc_fuel s <= 9.
Proof.
  revert s. induction n as [|n IH]; intros s Hn.
  - inversion Hn; subst.
    split; [apply conc_init_inv | unfold conc_fuel; simpl; lia].
  - apply nsteps_inv_r in Hn as (s1 & Hn & Hstep).
    destruct (IH s1 Hn) as [Hinv Hle]. split.
    + by eapply conc_step_inv.
    + pose proof (conc_step_fuel _ _ Hinv Hstep). lia.
Qed.

End GoroutineFacts.

Section GoroutineClaims.

Context (E : Env).

Lemma describe_silenced (c : APIDescribeCmd) (w : World) :
  APIDescribeCmd_Execute E c w = APIDescribeCmd_Execute (silenced E) c w.
Proof. reflexivity. Qed.

(** C9. When [describe] needs both the remote def and the examples, the
    two requests are two goroutines, both started before the main flow
    enters [wg.Wait()]: in every interleaving the wait returns only when
    both have finished, there is an interleaving in which both calls are
    in flight at once, every interleaving reaches the end of the wait
    within nine steps, and at that point [resp] holds the first result of
    each call, which is what the command encodes.  The errors of the two
    calls have no influence on the outcome of the command: a call that
    fails leaves in its half of the response what it returned with the
    error (nothing, for a client that returns nil with an error) and the
    other half is that of the other call. *)
Theorem describe_goroutines (noExamples : bool) (spec : DefSpec)
    (def : option sgDef) :
  (forall s, conc_reachable E noExamples spec def s ->
     (pc s = AtWait \/ pc s = Joined ->
        (def = None -> getTask s <> NotStarted) /\
        (noExamples = false -> exTask s <> NotStarted)) /\
     (pc s = Joined ->
        (def = None -> getTask s = Finished) /\
        (noExamples = false -> exTask s = Finished) /\
        resp s = joined E def noExamples spec /\
        (forall s', ~ conc_step E noExamples spec s s')) /\
     (pc s <> Joined -> exists s', conc_step E noExamples spec s s') /\
     (exists s', rtc (conc_step E noExamples spec) s s' /\ pc s' = Joined)) /\
  (forall n s,
     nsteps (conc_step E noExamples spec) n (conc_init def) s -> n <= 9) /\
  (def = None -> noExamples = false ->
     let s := conc_run E noExamples spec [ThMain; ThMain] (conc_init def) in
     conc_reachable E noExamples spec def s /\
     pc s = AtWait /\ wg s = 2 /\ getTask s = Running /\ exTask s = Running) /\
  (forall c w,
     APIDescribeCmd_Execute E c w = APIDescribeCmd_Execute (silenced E) c w) /\
  resp_Def (joined E None noExamples spec) = fst (Defs_Get E spec getOpt) /\
  (noExamples = false ->
     resp_Examples (joined E def noExamples spec) =
     fst (Defs_ListExamples E spec examplesOpt)) /\
  (fst (Defs_Get E spec getOpt) = None ->
     resp_Def (joined E None noExamples spec) = None) /\
  (fst (Defs_ListExamples E spec examplesOpt) = [] ->
     resp_Examples (joined E def noExamples spec) = []).
Proof.
  split_and!.
  - intros s Hreach.
    pose proof (conc_reachable_inv E noExamples spec def s Hreach) as Hinv.
    split_and!.
    + intros Hpc. destruct Hinv as [_ Hget Hex _ _ _]. split.
      * intros Hdef. apply Hget. split; [|done]. by destruct Hpc as [-> | ->].
      * intros Hno. apply Hex. by destruct Hpc as [-> | ->].
    + intros Hpc.
      destruct (conc_inv_joined E noExamples spec def s Hinv Hpc)
        as (Hresp & Hget & _ & Hex & _).
      split_and!; [by apply Hget | by apply Hex | done |].
      intros s'. by apply (conc_joined_final E noExamples spec def).
    + by apply (conc_progress E noExamples spec def).
    + by apply (conc_completes E noExamples spec def (conc_fuel s)).
  - intros n s Hn.
    destruct (conc_bounded E noExamples spec def n s Hn) as [_ Hle]. lia.
  - intros -> -> s. split; [apply conc_run_reachable | done].
  - apply describe_silenced.
  - done.
  - by intros ->.
  - by intros Hnil.
  - intros Hnil. unfold joined; simpl. by destruct noExamples.
Qed.

End GoroutineClaims.

(** ** The commands run on the repository [/r] *)

Section Examples.

Import Fixture.

Example Clean_examples :
  Clean "/r/./a.py" = "/r/a.py" /\ Clean "a/../../b//c/" = "../b/c" /\
  Clean "" = "." /\ Clean "/.." = "/" /\ Clean "./a.py" = "a.py" /\
  Dir "/r/a.py" = "/r" /\ Join "/r" "a.py" = "/r/a.py" /\
  Rel "/r" "/r/a.py" = Ok "a.py".
Proof. vm_compute. repeat split; reflexivity. Qed.

Example HasSuffix_examples :
  HasSuffix unitFileA "unit.json" = true /\
  HasSuffix graphFileA "unit.json" = false /\
  HasSuffix "json" "unit.json" = false.
Proof. vm_compute. repeat split; reflexivity. Qed.

(** The span of [refF] is 10..20: both ends are covered, their outer
    neighbours are not, and a ref of another file never is. *)
Example covers_boundaries :
  covers "a.py" 9 refF = false /\ covers "a.py" 10 refF = true /\
  covers "a.py" 20 refF = true /\ covers "a.py" 21 refF = false /\
  covers "b.py" 15 refF = false.
Proof. vm_compute. repeat split; reflexivity. Qed.

(** A fresh checkout is configured, then made; a built one is only made;
    a failing configure is the only step run. *)
Example ensureBuild_fresh :
  fst (ensureBuild E0 store repo fresh) = None /\
  exists c m, trace (snd (ensureBuild E0 store repo fresh)) =
              [EvConfigure c; EvMake m].
Proof. split; [reflexivity|]. eexists _, _. reflexivity. Qed.

Example ensureBuild_built :
  fst (ensureBuild E0 store repo built) = None /\
  exists m, trace (snd (ensureBuild E0 store repo built)) = [EvMake m].
Proof. split; [reflexivity|]. eexists. vm_compute. reflexivity. Qed.

Example ensureBuild_configure_fails :
  fst (ensureBuild Econfig store repo fresh) =
    Some (errorString "no toolchains") /\
  exists c, trace (snd (ensureBuild Econfig store repo fresh)) =
            [EvConfigure c].
Proof. split; [reflexivity|]. eexists. reflexivity. Qed.

(** [list] on [a.py]: the refs of [a.py] of unit [A], then those of [B]. *)
Example list_a_py :
  let run := APIListCmd_Execute E0 {| list_File := "/r/a.py" |} fresh in
  fst run = None /\
  last (trace (snd run)) =
    Some (EvEncodeRefs [refF; refG; refGone; refForeign; refB]).
Proof. vm_compute. split; reflexivity. Qed.

(** [describe] at offset 65: the def is in another repository; both
    goroutines are started with its locator. *)
Example describe_foreign :
  let run := APIDescribeCmd_Execute E0 (describeAt 65) fresh in
  let spec := {| spec_Repo := "github.com/x/y"; spec_UnitType := "GoPackage";
                 spec_Unit := "lib"; spec_Path := "Z" |} in
  fst (fst run) = None /\
  trace (snd (fst run)) =
    trace afterBuild ++
    [EvGo (TaskGet spec getOpt); EvGo (TaskListExamples spec examplesOpt);
     EvEncodeResp {| resp_Def := Some remoteG; resp_Examples := [exampleF] |}].
Proof. vm_compute. split; reflexivity. Qed.

(** One interleaving of the goroutines, step by step. *)
Example goroutines_interleaved :
  let spec := {| spec_Repo := "github.com/x/y"; spec_UnitType := "GoPackage";
                 spec_Unit := "lib"; spec_Path := "Z" |} in
  let run sched := conc_run E0 false spec sched (conc_init None) in
  (pc (run [ThMain; ThMain]), wg (run [ThMain; ThMain])) = (AtWait, 2) /\
  pc (run [ThMain; ThMain; ThMain]) = AtWait /\
  pc (run [ThMain; ThMain; ThGet; ThGet; ThMain]) = AtWait /\
  pc (run [ThMain; ThGet; ThGet; ThMain; ThExamples; ThExamples; ThMain]) =
    Joined /\
  resp (run [ThMain; ThGet; ThGet; ThMain; ThExamples; ThExamples; ThMain]) =
    {| resp_Def := Some remoteG; resp_Examples := [exampleF] |}.
Proof. vm_compute. repeat split; reflexivity. Qed.

End Examples.

(** ** The prologue and the shape of a run *)

Section RunShape.

Context (E : Env).

Lemma ensureBuild_events (buildStore : RepositoryStore) (repo : Repo)
    (w : World) :
  exists evs,
    trace (snd (ensureBuild E buildStore repo w)) = trace w ++ evs /\
    (evs = [EvMake (makeCmdOf repo)] \/
     evs = [EvConfigure (configCmdOf repo)] \/
     evs = [EvConfigure (configCmdOf repo); EvMake (makeCmdOf repo)]) /\
    (fst (ensureBuild E buildStore repo w) = None ->
     exists fs0,
       fs (snd (ensureBuild E buildStore repo w)) =
       snd (MakeCmd_Execute E (makeCmdOf repo) fs0) /\
       last evs = Some (EvMake (makeCmdOf repo))).
Proof.
  unfold ensureBuild, runConfigure, runMake.
  fold (buildOptions repo). fold (configCmdOf repo). fold (makeCmdOf repo).
  destruct (IsNotExist _).
  - destruct (ConfigCmd_Execute E (configCmdOf repo) (fs w)) as [[e|] fs1];
      simpl.
    + exists [EvConfigure (configCmdOf repo)]. split_and!; [done | auto | done].
    + destruct (MakeCmd_Execute E (makeCmdOf repo) fs1) as [r fs2] eqn:Hm;
        simpl.
      exists [EvConfigure (configCmdOf repo); EvMake (makeCmdOf repo)].
      split_and!; [by rewrite <- app_assoc | auto |].
      intros _. exists fs1. by rewrite Hm.
  - destruct (MakeCmd_Execute E (makeCmdOf repo) (fs w)) as [r fs2] eqn:Hm;
      simpl.
    exists [EvMake (makeCmdOf repo)]. split_and!; [done | auto |].
    intros _. exists (fs w). by rewrite Hm.
Qed.

Lemma prologueEvent_build (repo : Repo) (evs : list Event) :
  evs = [EvMake (makeCmdOf repo)] \/
  evs = [EvConfigure (configCmdOf repo)] \/
  evs = [EvConfigure (configCmdOf repo); EvMake (makeCmdOf repo)] ->
  Forall prologueEvent evs.
Proof. intros [-> | [-> | ->]]; repeat constructor. Qed.

(** The prologue adds to the trace a change of directory and build steps,
    nothing else. *)
Lemma openAndBuild_events (file : string) (w : World) :
  exists pro,
    trace (snd (openAndBuild E file w)) = trace w ++ pro /\
    Forall prologueEvent pro.
Proof.
  unfold openAndBuild.
  destruct (OpenRepo E _) as [repo|e]; simpl;
    [|exists []; by rewrite app_nil_r].
  destruct (filepath_Rel E _ _) as [file'|e]; simpl;
    [|exists []; by rewrite app_nil_r].
  destruct (os_Chdir E _) as [e|]; simpl;
    [exists [EvChdir (RootDir repo)]; split; [done | by repeat constructor]|].
  destruct (NewRepositoryStore E _) as [buildStore|e]; simpl;
    [|exists [EvChdir (RootDir repo)]; split; [done | by repeat constructor]].
  destruct (ensureBuild_events buildStore repo (emit (EvChdir (RootDir repo)) w))
    as (evs & Hevs & Hshape & _).
  destruct (ensureBuild E buildStore repo (emit (EvChdir (RootDir repo)) w))
    as [[e|] w1]; simpl in *.
  - exists (EvChdir (RootDir repo) :: evs). split.
    + rewrite Hevs. by rewrite <- app_assoc.
    + constructor; [done | by eapply prologueEvent_build].
  - exists (EvChdir (RootDir repo) :: evs).
    assert (Htrace : trace w1 = trace w ++ EvChdir (RootDir repo) :: evs)
      by (rewrite Hevs; by rewrite <- app_assoc).
    assert (Hpro : Forall prologueEvent (EvChdir (RootDir repo) :: evs))
      by (constructor; [done | by eapply prologueEvent_build]).
    by destruct (getSourceUnitsWithFile E (fs w1) buildStore repo file').
Qed.


Lemma emit_emitAll_trace (w1 : World) (evs : list Event) (ev : Event) :
  trace (emit ev (emitAll evs w1)) = trace w1 ++ evs ++ [ev].
Proof. unfold emit, emitAll; simpl. by rewrite app_assoc. Qed.

(** How a run of [describe] ends: with an error and nothing more in the
    trace, with the line [{}], or with goroutines and a response. *)
Lemma describe_run_shape (c : APIDescribeCmd) (w : World) :
  exists pro tail,
    trace (snd (fst (APIDescribeCmd_Execute E c w))) = trace w ++ pro ++ tail /\
    Forall prologueEvent pro /\
    ((tail = [] /\ is_Some (fst (fst (APIDescribeCmd_Execute E c w)))) \/
     (tail = [EvPrintln "{}"] /\
      fst (fst (APIDescribeCmd_Execute E c w)) = None) \/
     (exists def spec,
        tail = (EvGo <$> tasksOf def (NoExamples c) spec) ++
               [EvEncodeResp (joined E def (NoExamples c) spec)] /\
        fst (fst (APIDescribeCmd_Execute E c w)) =
          Encode_Resp E (joined E def (NoExamples c) spec))).
Proof.
  destruct (openAndBuild_events (File_ c) w) as (pro & Hpro & Hall).
  destruct (openAndBuild E (File_ c) w)
    as [[[[[file repo] buildStore] units]|e] w1] eqn:Hopen; simpl in Hpro.
  - destruct (scanUnits E (fs w1) buildStore repo file (StartByte c) units [])
      as [res mem] eqn:Hscan.
    destruct res as [[a|]|e].
    + destruct (scanUnits_covered E _ _ _ _ _ _ _ _ _ Hscan) as (r1 & Hget & _).
      rewrite (describe_matched E c w w1 file repo buildStore units a mem r1)
        by done.
      cbv zeta.
      destruct (if bool_decide _ then _ else _) as [[def|e] mem2]; simpl.
      * exists pro, ((EvGo <$> tasksOf def (NoExamples c)
                              (specOf (defaultDefRepo repo r1))) ++
                     [EvEncodeResp (joined E def (NoExamples c)
                                      (specOf (defaultDefRepo repo r1)))]).
        split_and!; [|done|].
        -- rewrite Hpro. by rewrite !app_assoc.
        -- right. right. by eexists _, _.
      * exists pro, []. rewrite app_nil_r. split_and!; [done..|].
        left. split; [done | by eexists].
    + rewrite (describe_not_found E c w w1 file repo buildStore units mem)
        by done.
      simpl. exists pro, [EvPrintln "{}"]. split_and!; [|done|].
      * rewrite Hpro. by rewrite app_assoc.
      * right. left. done.
    + rewrite (describe_scan_failure E c w w1 file repo buildStore units e mem)
        by done.
      simpl. exists pro, []. rewrite app_nil_r. split_and!; [done..|].
      left. split; [done | by eexists].
  - rewrite (describe_prologue_failure E c w w1 e) by done. simpl.
    exists pro, []. rewrite app_nil_r. split_and!; [done..|].
    left. split; [done | by eexists].
Qed.

Lemma list_run_shape (c : APIListCmd) (w : World) :
  exists pro tail,
    trace (snd (APIListCmd_Execute E c w)) = trace w ++ pro ++ tail /\
    Forall prologueEvent pro /\
    ((tail = [] /\ is_Some (fst (APIListCmd_Execute E c w))) \/
     (exists refs,
        tail = [EvEncodeRefs refs] /\
        fst (APIListCmd_Execute E c w) = Encode_Refs E refs)).
Proof.
  destruct (openAndBuild_events (list_File c) w) as (pro & Hpro & Hall).
  unfold APIListCmd_Execute.
  destruct (openAndBuild E (list_File c) w)
    as [[[[[file repo] buildStore] units]|e] w1] eqn:Hopen; simpl in Hpro.
  - destruct (listLoop E (fs w1) buildStore repo file units []) as [refs|e];
      simpl.
    + exists pro, [EvEncodeRefs refs]. split_and!; [|done|].
      * rewrite Hpro. by rewrite app_assoc.
      * right. by eexists.
    + exists pro, []. rewrite app_nil_r. split_and!; [done..|].
      left. split; [done | by eexists].
  - simpl. exists pro, []. rewrite app_nil_r. split_and!; [done..|].
    left. split; [done | by eexists].
Qed.

Lemma prologue_no_output (pro : list Event) :
  Forall prologueEvent pro -> filter (fun ev => isOutput ev = true) pro = [].
Proof.
  intros Hall. induction Hall as [|ev pro' Hev _ IH]; [done|].
  rewrite filter_cons_False; [done|]. by destruct ev.
Qed.


Lemma go_no_output (ts : list Task) :
  filter (fun ev => isOutput ev = true) (EvGo <$> ts) = [].
Proof.
  induction ts as [|t ts' IH]; [done|]. rewrite fmap_cons.
  by rewrite filter_cons_False.
Qed.


End RunShape.

(** ** What the commands write, and when *)

Section OutputFacts.

Context (E : Env).

Lemma prologue_not_output (pro : list Event) :
  Forall prologueEvent pro -> Forall (fun ev => isOutput ev = false) pro.
Proof. intros Hall. eapply Forall_impl; [exact Hall|]. by intros []. Qed.

Lemma go_not_output (ts : list Task) :
  Forall (fun ev => isOutput ev = false) (EvGo <$> ts).
Proof. apply Forall_fmap, Forall_forall. done. Qed.

Lemma filter_no_output (pre : list Event) :
  Forall (fun ev => isOutput ev = false) pre ->
  filter (fun ev => isOutput ev = true) pre = [].
Proof.
  intros Hall. induction Hall as [|ev pre' Hev _ IH]; [done|].
  rewrite filter_cons_False; [done | congruence].
Qed.

(** An output that follows only non-outputs is the last event. *)
Lemma output_is_last (pre : list Event) (out : Event) (front : list Event)
    (ev : Event) (back : list Event) :
  Forall (fun ev => isOutput ev = false) pre ->
  pre ++ [out] = front ++ ev :: back -> isOutput ev = true -> back = [].
Proof.
  intros Hpre. revert front.
  induction Hpre as [|x pre' Hx _ IH]; intros front Heq Hev.
  - destruct front as [|y front']; simpl in Heq.
    + by injection Heq as _ <-.
    + injection Heq as _ Heq. by destruct front'.
  - destruct front as [|y front']; simpl in Heq.
    + injection Heq as -> _. congruence.
    + injection Heq as _ Heq. by eapply IH.
Qed.

Lemma no_output_in (pre : list Event) (front : list Event) (ev : Event)
    (back : list Event) :
  Forall (fun ev => isOutput ev = false) pre ->
  pre = front ++ ev :: back -> isOutput ev = true -> False.
Proof.
  intros Hpre -> Hev. apply Forall_app in Hpre as [_ Hpre].
  apply Forall_cons in Hpre as [Hne _]. congruence.
Qed.

(** The events of a run: non-outputs, then at most one output. *)
Lemma describe_outputs (c : APIDescribeCmd) (w : World) :
  exists pre outs,
    newEvents w (snd (fst (APIDescribeCmd_Execute E c w))) (pre ++ outs) /\
    Forall (fun ev => isOutput ev = false) pre /\
    ((outs = [] /\ is_Some (fst (fst (APIDescribeCmd_Execute E c w)))) \/
     (exists out, outs = [out] /\ isOutput out = true)).
Proof.
  destruct (describe_run_shape E c w) as (pro & tail & Htrace & Hpro & Hcase).
  apply prologue_not_output in Hpro.
  destruct Hcase as [[-> Herr] | [[-> Herr] | (def & spec & -> & Herr)]].
  - exists pro, []. split_and!; [done | done | by left].
  - exists pro, [EvPrintln "{}"]. split_and!; [done | done |].
    right. by eexists.
  - exists (pro ++ (EvGo <$> tasksOf def (NoExamples c) spec)),
      [EvEncodeResp (joined E def (NoExamples c) spec)].
    split_and!.
    + unfold newEvents. rewrite Htrace. by rewrite !app_assoc.
    + apply Forall_app. split; [done | apply go_not_output].
    + right. by eexists.
Qed.

Lemma list_outputs (c : APIListCmd) (w : World) :
  exists pre outs,
    newEvents w (snd (APIListCmd_Execute E c w)) (pre ++ outs) /\
    Forall (fun ev => isOutput ev = false) pre /\
    ((outs = [] /\ is_Some (fst (APIListCmd_Execute E c w))) \/
     (exists out, outs = [out] /\ isOutput out = true)).
Proof.
  destruct (list_run_shape E c w) as (pro & tail & Htrace & Hpro & Hcase).
  apply prologue_not_output in Hpro.
  destruct Hcase as [[-> Herr] | (refs & -> & Herr)].
  - exists pro, []. split_and!; [done | done | by left].
  - exists pro, [EvEncodeRefs refs]. split_and!; [done | done |].
    right. by eexists.
Qed.

Lemma output_once_facts (err : option error) (pre outs : list Event) :
  Forall (fun ev => isOutput ev = false) pre ->
  (outs = [] /\ is_Some err) \/ (exists out, outs = [out] /\ isOutput out = true) ->
  length (filter (fun ev => isOutput ev = true) (pre ++ outs)) <= 1 /\
  (forall front ev back,
     pre ++ outs = front ++ ev :: back -> isOutput ev = true -> back = []) /\
  (err = None ->
   exists front out, pre ++ outs = front ++ [out] /\ isOutput out = true) /\
  (filter (fun ev => isOutput ev = true) (pre ++ outs) = [] -> is_Some err).
Proof.
  intros Hpre [[-> Herr] | (out & -> & Hout)].
  - rewrite app_nil_r, filter_no_output by done. split_and!.
    + simpl. lia.
    + intros front ev back Heq Hev. exfalso. by eapply no_output_in.
    + intros ->. by destruct Herr.
    + done.
  - rewrite filter_app, filter_no_output by done.
    rewrite filter_cons_True by done. simpl. split_and!.
    + lia.
    + intros front ev back Heq Hev. by eapply output_is_last.
    + intros _. by exists pre, out.
    + done.
Qed.

End OutputFacts.

(** ** Further properties of the commands *)

Section CommandFacts.

Context (E : Env).

Lemma filtered_sublist (file : string) (gs : list Output) :
  mjoin ((fun g => filter (fun ref => file = Ref_File ref) (Refs g)) <$> gs)
    `sublist_of` mjoin (Refs <$> gs).
Proof.
  induction gs as [|g gs' IH]; [done|]. simpl.
  apply sublist_app; [apply sublist_filter | done].
Qed.

(** X1. With the graphs of the candidate units loaded, [list] encodes the
    refs whose file is the query file, unit after unit in the order of the
    units and, within a unit, in the order of its graph: a sublist of all
    decoded refs, kept whatever their span.  With no candidate unit it
    encodes the empty list. *)
Theorem list_refs_in_order (c : APIListCmd) (w w1 : World) (file : string)
    (repo : Repo) (buildStore : RepositoryStore) (units : list SourceUnit)
    (gs : list Output) :
  openAndBuild E (list_File c) w = (Ok (file, repo, buildStore, units), w1) ->
  Forall2 (loadsGraphOf E (fs w1) buildStore repo) units gs ->
  let refs :=
    mjoin ((fun g => filter (fun ref => file = Ref_File ref) (Refs g)) <$> gs) in
  APIListCmd_Execute E c w = (Encode_Refs E refs, emit (EvEncodeRefs refs) w1) /\
  refs `sublist_of` mjoin (Refs <$> gs) /\
  (Forall (fun g => Forall (fun ref => Ref_File ref = file) (Refs g)) gs ->
   refs = mjoin (Refs <$> gs)) /\
  (units = [] -> refs = []).
Proof.
  intros Hopen Hload refs. split_and!.
  - by apply (list_loaded E c w w1 file repo buildStore units gs).
  - apply filtered_sublist.
  - intros Hall. subst refs. clear Hload.
    induction Hall as [|g gs' Hg _ IH]; [done|]. simpl. f_equal; [|done].
    clear IH. induction Hg as [|ref rest Href _ IH]; [done|].
    rewrite filter_cons_True by done. by f_equal.
  - intros ->. apply Forall2_nil_inv_l in Hload. by subst.
Qed.

(** X2. A query file that is in no repository, or that cannot be made
    relative to the root of its repository, is refused before anything
    else happens: both commands return that error and leave the world as
    it was (no change of directory, no build step, nothing written) and
    [describe] decodes no graph. *)
Theorem path_error_no_effect (file : string) (w : World) (e : error) :
  OpenRepo E (filepath_Dir E (filepath_Clean E file)) = Fail e \/
  (exists repo,
     OpenRepo E (filepath_Dir E (filepath_Clean E file)) = Ok repo /\
     filepath_Rel E (RootDir repo) (filepath_Clean E file) = Fail e) ->
  APIListCmd_Execute E {| list_File := file |} w = (Some e, w) /\
  (forall p noExamples,
     APIDescribeCmd_Execute E
       {| File_ := file; StartByte := p; NoExamples := noExamples |} w =
     (Some e, w, [])).
Proof.
  intros Hfail.
  assert (Hopen : openAndBuild E file w = (Fail e, w)).
  { unfold openAndBuild. destruct Hfail as [-> | (repo & -> & ->)]; done. }
  split.
  - unfold APIListCmd_Execute; simpl. by rewrite Hopen.
  - intros p noExamples. by apply describe_prologue_failure.
Qed.

(** X3. A command gets past its prologue only after the make step has
    run: the prologue has changed to the root of the repository, has run
    configure at most once and then make, and the units it hands on were
    looked up in the file system that make left, for the query file made
    relative to the root. *)
Theorem commands_build_first (file : string) (w w1 : World) (rel : string)
    (repo : Repo) (buildStore : RepositoryStore) (units : list SourceUnit) :
  openAndBuild E file w = (Ok (rel, repo, buildStore, units), w1) ->
  OpenRepo E (filepath_Dir E (filepath_Clean E file)) = Ok repo /\
  filepath_Rel E (RootDir repo) (filepath_Clean E file) = Ok rel /\
  NewRepositoryStore E (RootDir repo) = Ok buildStore /\
  (exists configured fs0,
     newEvents w w1
       (EvChdir (RootDir repo) :: configured ++ [EvMake (makeCmdOf repo)]) /\
     (configured = [] \/ configured = [EvConfigure (configCmdOf repo)]) /\
     fs w1 = snd (MakeCmd_Execute E (makeCmdOf repo) fs0)) /\
  getSourceUnitsWithFile E (fs w1) buildStore repo rel = Ok units.
Proof.
  intros Hopen. unfold openAndBuild in Hopen. cbv zeta in Hopen.
  destruct (OpenRepo E _) as [repo'|e] eqn:Hrepo; [|discriminate Hopen].
  destruct (filepath_Rel E _ _) as [rel'|e] eqn:Hrel; [|discriminate Hopen].
  destruct (os_Chdir E _) as [e|]; [discriminate Hopen|].
  destruct (NewRepositoryStore E _) as [buildStore'|e] eqn:Hstore;
    [|discriminate Hopen].
  destruct (ensureBuild_events E buildStore' repo'
              (emit (EvChdir (RootDir repo')) w))
    as (evs & Hevs & Hshape & Hmade).
  destruct (ensureBuild E buildStore' repo' (emit (EvChdir (RootDir repo')) w))
    as [[e|] w2]; [discriminate Hopen|]. simpl in *.
  destruct (getSourceUnitsWithFile E (fs w2) buildStore' repo' rel')
    as [units'|e] eqn:Hunits; [|discriminate Hopen].
  injection Hopen as <- <- <- <- <-. split_and!; [done..| |done].
  destruct (Hmade eq_refl) as (fs0 & Hfs & Hlast).
  destruct Hshape as [-> | [-> | ->]]; [|done|].
  - exists [], fs0. split_and!; [|by left|done].
    unfold newEvents. rewrite Hevs. by rewrite <- app_assoc.
  - exists [EvConfigure (configCmdOf repo')], fs0. split_and!; [|by right|done].
    unfold newEvents. rewrite Hevs. by rewrite <- app_assoc.
Qed.

End CommandFacts.

(** ** The manifests of a commit *)

Section ManifestFacts.

Context (E : Env).

Lemma list_ascii_of_string_app (s1 s2 : string) :
  String.list_ascii_of_string (s1 +:+ s2) =
  String.list_ascii_of_string s1 ++ String.list_ascii_of_string s2.
Proof. induction s1 as [|ch s1' IH]; simpl; [done | by rewrite IH]. Qed.

Lemma list_HasPrefix_spec (s prefix : list Ascii.ascii) :
  list_HasPrefix s prefix = true <-> exists rest, s = prefix ++ rest.
Proof.
  revert s. induction prefix as [|ch prefix' IH]; intros s; simpl.
  - destruct s; simpl; (split; [intros _; by eexists | done]).
  - destruct s as [|ch' s']; simpl.
    + split; [done | by intros [rest ?]].
    + rewrite andb_true_iff, bool_decide_eq_true, IH. split.
      * intros [-> [rest ->]]. by exists rest.
      * intros [rest [= -> ->]]. split; [done | by exists rest].
Qed.

Lemma HasSuffix_spec (s suffix : string) :
  HasSuffix s suffix = true <-> endsWith s suffix.
Proof.
  unfold HasSuffix, endsWith. rewrite list_HasPrefix_spec. split.
  - intros [rest Hrev].
    exists (String.string_of_list_ascii (reverse rest)).
    assert (Hlist : String.list_ascii_of_string s =
                    String.list_ascii_of_string
                      (String.string_of_list_ascii (reverse rest) +:+ suffix)).
    { rewrite list_ascii_of_string_app,
        String.list_ascii_of_string_of_list_ascii.
      rewrite <- (reverse_involutive (String.list_ascii_of_string s)), Hrev.
      by rewrite reverse_app, reverse_involutive. }
    rewrite <- (String.string_of_list_ascii_of_string s), Hlist.
    by rewrite String.string_of_list_ascii_of_string.
  - intros [front ->].
    exists (reverse (String.list_ascii_of_string front)).
    by rewrite list_ascii_of_string_app, reverse_app.
Qed.

Lemma unitsLoop_agree (fsys fsys' : FileSystem) (unitFiles : list string)
    (filename : string) (units : list SourceUnit) :
  Forall (fun path => fs_Open fsys' path = fs_Open fsys path) unitFiles ->
  unitsLoop E fsys' unitFiles filename units =
  unitsLoop E fsys unitFiles filename units.
Proof.
  intros Hall. revert units.
  induction Hall as [|path rest Hpath _ IH]; intros units; [done|].
  simpl. rewrite Hpath.
  destruct (fs_Open fsys path) as [f|e]; simpl; [|done].
  destruct (decodeSourceUnit f) as [u|e]; simpl; [|done]. apply IH.
Qed.

(** X4. The manifests that [getSourceUnitsWithFile] reads are the walked
    paths that end with the manifest suffix, in the order of the walk, and
    no other file is opened: two file systems with the same walk that
    agree on the files with the suffix give the same answer, whatever the
    other files hold, and a commit without any manifest gives the empty
    list. *)
Theorem unit_files_by_suffix (fsys : FileSystem) (buildStore : RepositoryStore)
    (repo : Repo) (filename : string) :
  let suffix := DataTypeSuffix_SourceUnit E in
  let walk := fs_Walk fsys (CommitPath buildStore (CommitID repo)) in
  collectUnitFiles suffix walk [] `sublist_of` walk /\
  (forall path, path ∈ collectUnitFiles suffix walk [] <->
                path ∈ walk /\ endsWith path suffix) /\
  (forall fsys',
     fs_Walk fsys' (CommitPath buildStore (CommitID repo)) = walk ->
     (forall path, path ∈ walk -> endsWith path suffix ->
                   fs_Open fsys' path = fs_Open fsys path) ->
     getSourceUnitsWithFile E fsys' buildStore repo filename =
     getSourceUnitsWithFile E fsys buildStore repo filename) /\
  ((forall path, path ∈ walk -> ~ endsWith path suffix) ->
   getSourceUnitsWithFile E fsys buildStore repo filename = Ok []).
Proof.
  intros suffix walk.
  assert (Hmem : forall path,
            path ∈ collectUnitFiles suffix walk [] <->
            path ∈ walk /\ endsWith path suffix).
  { intros path. rewrite collectUnitFiles_filter. simpl.
    rewrite list_elem_of_filter, HasSuffix_spec. tauto. }
  split_and!.
  - rewrite collectUnitFiles_filter. apply sublist_filter.
  - exact Hmem.
  - intros fsys' Hwalk Hagree. unfold getSourceUnitsWithFile.
    rewrite Hwalk. fold walk. fold suffix. apply unitsLoop_agree.
    apply Forall_forall. intros path [Hin Hend]%Hmem. by apply Hagree.
  - intros Hnone. unfold getSourceUnitsWithFile. fold walk. fold suffix.
    assert (collectUnitFiles suffix walk [] = []) as ->; [|done].
    apply elem_of_nil_inv. intros path [Hin Hend]%Hmem.
    by eapply Hnone.
Qed.

End ManifestFacts.

(** ** Local resolution: documentation and failures *)

Section ResolutionFacts.

Context (E : Env).

Lemma docHTMLOf_none (docs : list Doc) (path html : string) :
  Forall (fun doc => Doc_Path doc <> path) docs ->
  docHTMLOf docs path html = html.
Proof.
  intros Hall. revert html.
  induction Hall as [|doc rest Hdoc _ IH]; intros html; simpl; [done|].
  by rewrite bool_decide_eq_false_2, IH.
Qed.

Lemma docHTMLOf_last (before : list Doc) (doc : Doc) (after : list Doc)
    (path html : string) :
  Doc_Path doc = path ->
  Forall (fun doc' => Doc_Path doc' <> path) after ->
  docHTMLOf (before ++ doc :: after) path html = Doc_Data doc.
Proof.
  intros Hdoc Hafter. revert html.
  induction before as [|doc0 before' IH]; intros html; simpl.
  - rewrite bool_decide_eq_true_2 by done. by apply docHTMLOf_none.
  - apply IH.
Qed.

(** X5. When [describe] resolves the def locally, the response carries a
    copy of the decoded def (same path and payload) and, as its
    documentation, the data of the last doc of the graph that has the path
    of the def; without such a doc the documentation is empty. *)
Theorem describe_doc_last_wins (c : APIDescribeCmd) (w w1 : World)
    (file : string) (repo : Repo) (buildStore : RepositoryStore)
    (units : list SourceUnit) (a : Addr) (mem : Memory) (r1 : Ref)
    (g : Output) (dpre : list Def) (d : Def) (dpost : list Def) :
  openAndBuild E (File_ c) w = (Ok (file, repo, buildStore, units), w1) ->
  scanUnits E (fs w1) buildStore repo file (StartByte c) units [] =
    (Ok (Some a), mem) ->
  getRef mem a = Some r1 ->
  let r := defaultDefRepo repo r1 in
  DefRepo r = URI repo ->
  loadsGraph (fs w1)
    (graphFileOf E buildStore repo
       {| Name := DefUnit r; Type_ := DefUnitType r; Files := [] |}) g ->
  Defs g = dpre ++ d :: dpost ->
  Forall (fun d' => Def_Path d' <> DefPath r) dpre ->
  Def_Path d = DefPath r ->
  exists resp w' mem' sd,
    APIDescribeCmd_Execute E c w = (Encode_Resp E resp, w', mem') /\
    last (trace w') = Some (EvEncodeResp resp) /\
    resp_Def resp = Some sd /\
    Def_Path (sg_Def sd) = Def_Path d /\
    Def_Data (sg_Def sd) = Def_Data d /\
    (Forall (fun doc => Doc_Path doc <> DefPath r) (Docs g) ->
     DocHTML sd = "") /\
    (forall before doc after,
       Docs g = before ++ doc :: after ->
       Doc_Path doc = DefPath r ->
       Forall (fun doc' => Doc_Path doc' <> DefPath r) after ->
       DocHTML sd = Doc_Data doc).
Proof.
  intros Hopen Hscan Hget r Hcur Hg Hdefs Hpre Hd.
  pose proof (describe_matched E c w w1 file repo buildStore units a mem r1
                Hopen Hscan Hget) as Hrun.
  cbv zeta in Hrun. fold r in Hrun.
  rewrite bool_decide_eq_true_2 in Hrun by done.
  rewrite localDef_unfold in Hrun.
  apply loadGraph_Ok in Hg. rewrite Hg in Hrun.
  rewrite Hdefs, findDef_first in Hrun by done.
  eexists _, _, _, _. split; [exact Hrun|]. split_and!.
  - rewrite emit_emitAll_trace, !app_assoc. by rewrite last_snoc.
  - done.
  - done.
  - done.
  - intros Hnone. simpl. by apply docHTMLOf_none.
  - intros before doc after Hdocs Hdoc Hafter. simpl.
    rewrite Hdocs. by apply docHTMLOf_last.
Qed.

(** X6. [describe] fails at the first candidate unit whose graph does not
    load, when no ref of the units before it covers the position: it
    returns the error of [Open], or the error of the decoder with the name
    of the graph file in front, writes nothing and starts no goroutine;
    the graphs decoded before stay as they were. *)
Theorem describe_graph_failure (c : APIDescribeCmd) (w w1 : World)
    (file : string) (repo : Repo) (buildStore : RepositoryStore)
    (us1 : list SourceUnit) (gs1 : list Output) (u : SourceUnit)
    (us2 : list SourceUnit) :
  openAndBuild E (File_ c) w =
    (Ok (file, repo, buildStore, us1 ++ u :: us2), w1) ->
  Forall2 (loadsGraphOf E (fs w1) buildStore repo) us1 gs1 ->
  Forall (fun g1 => Forall (fun r1 => ~ covered file (StartByte c) r1) (Refs g1))
         gs1 ->
  let graphFile := graphFileOf E buildStore repo u in
  (forall e,
     fs_Open (fs w1) graphFile = Fail e ->
     APIDescribeCmd_Execute E c w = (Some e, w1, gs1)) /\
  (forall f e,
     fs_Open (fs w1) graphFile = Ok f -> decodeOutput f = Fail e ->
     APIDescribeCmd_Execute E c w = (Some (Errorf graphFile e), w1, gs1)).
Proof.
  intros Hopen Hload Hnone graphFile. split.
  - intros e He. eapply describe_scan_failure; [done|].
    rewrite (scanUnits_failure E _ _ _ _ _ us1 gs1 u e us2); [done..|].
    unfold loadGraph. fold graphFile. by rewrite He.
  - intros f e Hf He. eapply describe_scan_failure; [done|].
    rewrite (scanUnits_failure E _ _ _ _ _ us1 gs1 u (Errorf graphFile e) us2);
      [done..|].
    unfold loadGraph. fold graphFile. rewrite Hf. simpl. by rewrite He.
Qed.

End ResolutionFacts.

(** ** Output, goroutines and the wait group *)

Section EventFacts.

Context (E : Env).

(** X7. Each command writes at most one document on standard output, and
    that is the last thing it does.  A run that returns no error has
    written exactly one; a run that has written none returns an error. *)
Theorem commands_output_once (w : World) :
  (forall c : APIDescribeCmd,
     exists evs,
       newEvents w (snd (fst (APIDescribeCmd_Execute E c w))) evs /\
       length (filter (fun ev => isOutput ev = true) evs) <= 1 /\
       (forall front ev back,
          evs = front ++ ev :: back -> isOutput ev = true -> back = []) /\
       (fst (fst (APIDescribeCmd_Execute E c w)) = None ->
        exists front out, evs = front ++ [out] /\ isOutput out = true) /\
       (filter (fun ev => isOutput ev = true) evs = [] ->
        is_Some (fst (fst (APIDescribeCmd_Execute E c w))))) /\
  (forall c : APIListCmd,
     exists evs,
       newEvents w (snd (APIListCmd_Execute E c w)) evs /\
       length (filter (fun ev => isOutput ev = true) evs) <= 1 /\
       (forall front ev back,
          evs = front ++ ev :: back -> isOutput ev = true -> back = []) /\
       (fst (APIListCmd_Execute E c w) = None ->
        exists front out, evs = front ++ [out] /\ isOutput out = true) /\
       (filter (fun ev => isOutput ev = true) evs = [] ->
        is_Some (fst (APIListCmd_Execute E c w)))).
Proof.
  split.
  - intros c. destruct (describe_outputs E c w) as (pre & outs & Hnew & Hpre & Hcase).
    exists (pre ++ outs). split; [done|]. by apply output_once_facts.
  - intros c. destruct (list_outputs E c w) as (pre & outs & Hnew & Hpre & Hcase).
    exists (pre ++ outs). split; [done|]. by apply output_once_facts.
Qed.

Lemma prologue_elem (pro : list Event) (ev : Event) :
  Forall prologueEvent pro -> ev ∈ pro -> prologueEvent ev.
Proof. intros Hall Hin. by eapply Forall_forall in Hall. Qed.

(** X8. With [NoExamples] set, [describe] starts no goroutine for the
    examples and every response it encodes has no examples.  Without it,
    every response encoded was preceded by the start of the examples
    goroutine and holds the first result of that call. *)
Theorem describe_examples_switch (c : APIDescribeCmd) (w : World) :
  exists evs,
    newEvents w (snd (fst (APIDescribeCmd_Execute E c w))) evs /\
    (NoExamples c = true ->
       (forall spec opt, EvGo (TaskListExamples spec opt) ∉ evs) /\
       (forall resp, EvEncodeResp resp ∈ evs -> resp_Examples resp = [])) /\
    (NoExamples c = false ->
       forall resp, EvEncodeResp resp ∈ evs ->
       exists spec,
         EvGo (TaskListExamples spec examplesOpt) ∈ evs /\
         resp_Examples resp = fst (Defs_ListExamples E spec examplesOpt)).
Proof.
  destruct (describe_run_shape E c w) as (pro & tail & Htrace & Hpro & Hcase).
  exists (pro ++ tail). split; [done|].
  assert (Hno : forall ev, ev ∈ pro -> prologueEvent ev)
    by (intros ev; by apply prologue_elem).
  destruct Hcase as [[-> _] | [[-> _] | (def & spec & -> & _)]].
  - rewrite app_nil_r. split.
    + intros _. split.
      * intros spec opt Hin. by apply Hno in Hin.
      * intros resp Hin. by apply Hno in Hin.
    + intros _ resp Hin. by apply Hno in Hin.
  - split.
    + intros _. split.
      * intros spec opt [Hin|Hin]%elem_of_app; [by apply Hno in Hin|].
        by apply list_elem_of_singleton in Hin.
      * intros resp [Hin|Hin]%elem_of_app; [by apply Hno in Hin|].
        by apply list_elem_of_singleton in Hin.
    + intros _ resp [Hin|Hin]%elem_of_app; [by apply Hno in Hin|].
      by apply list_elem_of_singleton in Hin.
  - split.
    + intros Hne. rewrite Hne. split.
      * intros spec' opt [Hin|[Hin|Hin]%elem_of_app]%elem_of_app.
        -- by apply Hno in Hin.
        -- unfold tasksOf in Hin. simpl in Hin. rewrite app_nil_r in Hin.
           destruct def; simpl in Hin.
           ++ by apply elem_of_nil in Hin.
           ++ by apply list_elem_of_singleton in Hin.
        -- by apply list_elem_of_singleton in Hin.
      * intros resp [Hin|[Hin|Hin]%elem_of_app]%elem_of_app.
        -- by apply Hno in Hin.
        -- by apply list_elem_of_fmap in Hin as (t & ? & _).
        -- apply list_elem_of_singleton in Hin. by injection Hin as ->.
    + intros Hne. rewrite Hne.
      intros resp [Hin|[Hin|Hin]%elem_of_app]%elem_of_app.
      * by apply Hno in Hin.
      * by apply list_elem_of_fmap in Hin as (t & ? & _).
      * apply list_elem_of_singleton in Hin. injection Hin as ->.
        exists spec. split; [|done].
        apply elem_of_app. right. apply elem_of_app. left.
        apply list_elem_of_fmap. exists (TaskListExamples spec examplesOpt).
        split; [done|]. unfold tasksOf. simpl.
        apply elem_of_app. right. apply list_elem_of_here.
Qed.




(** X10. In every interleaving of the main flow and the goroutines the
    wait group counter is the number of goroutines that were started and
    have not yet called [Done]: it never exceeds two, it is positive
    whenever a goroutine is about to call [Done] (the counter never goes
    negative), and [resp] is written only by a call that has returned:
    until then its def is the one local resolution left and its examples
    are empty. *)
Theorem waitgroup_counter (noExamples : bool) (spec : DefSpec)
    (def : option sgDef) (s : Conc) :
  conc_reachable E noExamples spec def s ->
  wg s = pending (getTask s) + pending (exTask s) /\
  wg s <= 2 /\
  (getTask s = Returned \/ exTask s = Returned -> 0 < wg s) /\
  (wg s = 0 <-> pending (getTask s) = 0 /\ pending (exTask s) = 0) /\
  (assigned (getTask s) = false -> resp_Def (resp s) = def) /\
  (assigned (exTask s) = false -> resp_Examples (resp s) = []).
Proof.
  intros Hreach.
  destruct (conc_reachable_inv E noExamples spec def s Hreach)
    as [Hwg _ _ _ Hdef Hexs].
  split_and!.
  - done.
  - rewrite Hwg. destruct (getTask s), (exTask s); simpl; lia.
  - rewrite Hwg. intros [-> | ->]; simpl; lia.
  - rewrite Hwg. lia.
  - intros Hna. by rewrite Hdef, Hna.
  - intros Hna. by rewrite Hexs, Hna.
Qed.

End EventFacts.

(** ** Registration of the commands *)

Section InitFacts.

(** X11. [init] registers [api] on the global parser and then [describe]
    and [list], in that order, on the command that the first registration
    returned.  It returns only if all three registrations succeed;
    otherwise it ends the process with the error of the first one that
    fails and attempts none after it. *)
Theorem init_registers (P : Parser) (made : list Registration) :
  exists attempted,
    snd (init P made) = made ++ attempted /\
    (fst (init P made) = InitReturns ->
     exists c d l,
       AddCommand P made (regApi P) = Ok c /\
       AddCommand P (made ++ [regApi P]) (regDescribe c) = Ok d /\
       AddCommand P (made ++ [regApi P; regDescribe c]) (regList c) = Ok l /\
       attempted = [regApi P; regDescribe c; regList c]) /\
    (forall err, fst (init P made) = InitFatal err ->
     exists before reg,
       attempted = before ++ [reg] /\
       AddCommand P (made ++ before) reg = Fail err /\
       forall i r, before !! i = Some r ->
                   isOk (AddCommand P (made ++ take i before) r) = true) /\
    (forall reg, reg ∈ attempted ->
       reg = regApi P \/
       exists c, AddCommand P made (regApi P) = Ok c /\
                 (reg = regDescribe c \/ reg = regList c)).
Proof.
  unfold init.
  destruct (AddCommand P made (regApi P)) as [c|e] eqn:Hapi; simpl.
  - destruct (AddCommand P (made ++ [regApi P]) (regDescribe c))
      as [d|e] eqn:Hdescribe; simpl.
    + destruct (AddCommand P ((made ++ [regApi P]) ++ [regDescribe c])
                  (regList c)) as [l|e] eqn:Hlist; simpl.
      * exists [regApi P; regDescribe c; regList c]. split_and!.
        -- by rewrite <- !app_assoc.
        -- intros _. exists c, d, l. split_and!; try done.
           by rewrite <- Hlist, <- app_assoc.
        -- done.
        -- intros reg Hin. repeat (apply elem_of_cons in Hin as [->|Hin]);
             [by left | right; exists c; auto.. | by apply elem_of_nil in Hin].
      * exists [regApi P; regDescribe c; regList c]. split_and!.
        -- by rewrite <- !app_assoc.
        -- done.
        -- intros err [= <-]. exists [regApi P; regDescribe c], (regList c).
           split_and!; [done | by rewrite <- Hlist, <- app_assoc |].
           intros [|[|i]] r Hr; simpl in Hr; simplify_eq; simpl.
           ++ by rewrite app_nil_r, Hapi.
           ++ by rewrite Hdescribe.
        -- intros reg Hin. repeat (apply elem_of_cons in Hin as [->|Hin]);
             [by left | right; exists c; auto.. | by apply elem_of_nil in Hin].
    + exists [regApi P; regDescribe c]. split_and!.
      * by rewrite <- !app_assoc.
      * done.
      * intros err [= <-]. exists [regApi P], (regDescribe c).
        split_and!; [done | done |].
        intros [|i] r Hr; simpl in Hr; simplify_eq; simpl.
        by rewrite app_nil_r, Hapi.
      * intros reg Hin. repeat (apply elem_of_cons in Hin as [->|Hin]);
          [by left | right; exists c; auto | by apply elem_of_nil in Hin].
  - exists [regApi P]. split_and!.
    + done.
    + done.
    + intros err [= <-]. exists [], (regApi P).
      split_and!; [done | by rewrite app_nil_r | done].
    + intros reg Hin. apply list_elem_of_singleton in Hin. by left.
Qed.

End InitFacts.

Section EventFactsMore.

Context (E : Env).

(** X12. [list] starts no goroutine: it answers from the stored artifacts
    alone, without any request to the remote service. *)
Theorem list_no_remote (c : APIListCmd) (w : World) :
  exists evs,
    newEvents w (snd (APIListCmd_Execute E c w)) evs /\
    (forall t, EvGo t ∉ evs) /\
    (forall resp, EvEncodeResp resp ∉ evs) /\
    (forall line, EvPrintln line ∉ evs).
Proof.
  destruct (list_run_shape E c w) as (pro & tail & Htrace & Hpro & Hcase).
  exists (pro ++ tail). split; [done|].
  assert (Hno : forall ev, ev ∈ pro -> prologueEvent ev)
    by (intros ev; by apply prologue_elem).
  destruct Hcase as [[-> _] | (refs & -> & _)].
  - rewrite app_nil_r. split_and!; intros x Hin; by apply Hno in Hin.
  - split_and!; intros x [Hin|Hin]%elem_of_app;
      (by apply Hno in Hin) || (by apply list_elem_of_singleton in Hin).
Qed.

End EventFactsMore.

Section ForeignFacts.

Context (E : Env).

Lemma setRef_same (mem : Memory) (a : Addr) (f : Ref -> Ref) (r : Ref) :
  getRef mem a = Some r -> f r = r -> setRef mem a f = mem.
Proof.
  intros Hget Hf.
  rewrite (setRef_ext mem a f (fun x => x) r) by done.
  unfold setRef. apply list_alter_id. intros [defs refs docs].
  unfold withRefs; simpl. f_equal. by apply list_alter_id.
Qed.

(** X13. A matched ref that names another repository is resolved
    remotely only: [describe] leaves the ref as the scan left it, loads no
    further graph, starts the goroutine that gets the def (and, unless
    examples are switched off, the one for the examples) and encodes the
    first result of each call, whether or not the current repository has a
    unit and a def of the same names. *)
Theorem describe_foreign_remote (c : APIDescribeCmd) (w w1 : World)
    (file : string) (repo : Repo) (buildStore : RepositoryStore)
    (units : list SourceUnit) (a : Addr) (mem : Memory) (r1 : Ref) :
  openAndBuild E (File_ c) w = (Ok (file, repo, buildStore, units), w1) ->
  scanUnits E (fs w1) buildStore repo file (StartByte c) units [] =
    (Ok (Some a), mem) ->
  getRef mem a = Some r1 ->
  DefRepo r1 <> "" ->
  DefRepo r1 <> URI repo ->
  let spec := specOf r1 in
  let resp :=
    {| resp_Def := fst (Defs_Get E spec getOpt);
       resp_Examples :=
         if NoExamples c then []
         else fst (Defs_ListExamples E spec examplesOpt) |} in
  let goExamples :=
    if NoExamples c then []
    else [EvGo (TaskListExamples spec examplesOpt)] in
  spec_Repo spec = DefRepo r1 /\
  APIDescribeCmd_Execute E c w =
    (Encode_Resp E resp,
     emit (EvEncodeResp resp)
       (emitAll (EvGo (TaskGet spec getOpt) :: goExamples) w1),
     mem).
Proof.
  intros Hopen Hscan Hget Hne Hforeign spec resp goExamples.
  split; [done|].
  assert (Hsame : defaultDefRepo repo r1 = r1).
  { unfold defaultDefRepo. by rewrite bool_decide_eq_false_2. }
  rewrite (describe_matched E c w w1 file repo buildStore units a mem r1)
    by done.
  cbv zeta. rewrite Hsame.
  rewrite bool_decide_eq_false_2 by done.
  rewrite (setRef_same mem a (defaultDefRepo repo) r1) by done.
  subst resp goExamples spec. unfold joined, tasksOf.
  by destruct (NoExamples c).
Qed.

End ForeignFacts.

(** ** The statements at the repository [/r] *)

Section Witnesses.

Import Fixture.

#[local] Ltac loads_graph g :=
  exists (graphJSON g); split; vm_compute; reflexivity.

#[local] Ltac loads_unit u :=
  exists (unitJSON u); split; vm_compute; reflexivity.

#[local] Ltac not_covered :=
  repeat (first [ apply Forall_nil_2
                | apply Forall_cons_2;
                  [apply covers_false_iff; vm_compute; reflexivity|] ]).

Lemma openAndBuild_E0 :
  openAndBuild E0 "/r/./a.py" fresh =
  (Ok ("a.py", repo, store, [unitA; unitB]), afterBuild).
Proof. vm_compute. reflexivity. Qed.

(** At offset 15 of [a.py] both [refF] (10..20) and [refG] (15..30) cover
    the position; the scan returns [refF], the first, and never loads the
    graph of [B]. *)
Lemma describe_first_match_witness :
  scanUnits E0 (mkFS builtFiles) store repo "a.py" 15 [unitA; unitB] [] =
  (Ok (Some {| graphIx := 0; refIx := 1 |}),
   [withRefs graphA
      [refOther; withDefUnitType (withDefUnit refF "A") "PipPackage";
       refG; refGone; refForeign]]).
Proof.
  refine (proj1 (proj2
    (describe_first_match E0 (mkFS builtFiles) store repo "a.py" 15
       [] [] unitA graphA [refOther] refF [refG; refGone; refForeign] [unitB]
       _ _ _ _ _ _))).
  - constructor.
  - constructor.
  - loads_graph graphA.
  - reflexivity.
  - not_covered.
  - apply covers_iff. vm_compute. reflexivity.
Defined.

(** No ref of [a.py] covers offset 100. *)
Lemma describe_no_ref_empty_witness :
  APIDescribeCmd_Execute E0 (describeAt 100) fresh =
  (None, emit (EvPrintln "{}") afterBuild, [graphA; graphB]).
Proof.
  refine (proj1
    (describe_no_ref_empty E0 (describeAt 100) fresh afterBuild "a.py" repo
       store [unitA; unitB] [graphA; graphB] _ _ _)).
  - exact openAndBuild_E0.
  - constructor; [loads_graph graphA|].
    constructor; [loads_graph graphB|]. constructor.
  - constructor; [not_covered|]. constructor; [not_covered|]. constructor.
Defined.

(** The ref [refF] names neither unit nor repository; matched in unit [A]
    of [example.com/r] its locator is [example.com/r, PipPackage, A, f]. *)
Lemma describe_locator_defaults_witness :
  exists err w' mem evs,
    APIDescribeCmd_Execute E0 (describeAt 15) fresh = (err, w', mem) /\
    newEvents afterBuild w' evs /\
    (exists r', getRef mem {| graphIx := 0; refIx := 1 |} = Some r' /\
                specOf r' = {| spec_Repo := "example.com/r";
                               spec_UnitType := "PipPackage";
                               spec_Unit := "A"; spec_Path := "f" |}) /\
    (forall t, EvGo t ∈ evs ->
       taskSpec t = {| spec_Repo := "example.com/r";
                       spec_UnitType := "PipPackage";
                       spec_Unit := "A"; spec_Path := "f" |}).
Proof.
  destruct
    (describe_locator_defaults E0 (describeAt 15) fresh afterBuild "a.py" repo
       store [] [] unitA graphA [refOther] refF [refG; refGone; refForeign]
       [unitB])
    as (err & w' & mem & evs & Hrun & Hevs & Hmem & Htasks & _).
  - exact openAndBuild_E0.
  - constructor.
  - constructor.
  - loads_graph graphA.
  - reflexivity.
  - not_covered.
  - apply covers_iff. vm_compute. reflexivity.
  - exists err, w', mem, evs. split_and!; assumption.
Defined.

(** The ref at offset 15 points into unit [A] of this repository, which
    has the def [f]: it is returned with the file [/r/a.py]. *)
Lemma describe_local_resolution_witness :
  exists resp,
    APIDescribeCmd_Execute E0 (describeAt 15) fresh =
      (None,
       emit (EvEncodeResp resp)
         (emitAll [EvGo (TaskListExamples
                           {| spec_Repo := "example.com/r";
                              spec_UnitType := "PipPackage";
                              spec_Unit := "A"; spec_Path := "f" |}
                           examplesOpt)] afterBuild),
       [withRefs graphA
          [refOther;
           withDefRepo (withDefUnitType (withDefUnit refF "A") "PipPackage")
                       "example.com/r";
           refG; refGone; refForeign];
        graphA]) /\
    resp_Def resp =
      Some {| sg_Def := {| Def_Path := "f"; Def_File := "/r/a.py";
                           Def_Data := "{}" |};
              DocHTML := "<p>f</p>" |}.
Proof.
  destruct
    (describe_local_resolution E0 (describeAt 15) fresh afterBuild "a.py" repo
       store [unitA; unitB] {| graphIx := 0; refIx := 1 |}
       [withRefs graphA
          [refOther; withDefUnitType (withDefUnit refF "A") "PipPackage";
           refG; refGone; refForeign]]
       (withDefUnitType (withDefUnit refF "A") "PipPackage"))
    as (Hfound & _ & _ & _).
  - exact openAndBuild_E0.
  - vm_compute. reflexivity.
  - reflexivity.
  - reflexivity.
  - eexists. split.
    + apply (Hfound graphA [] defF []).
      * loads_graph graphA.
      * reflexivity.
      * apply Forall_nil_2.
      * reflexivity.
    + vm_compute. reflexivity.
Defined.

(** C2 fails on the code: the ref at offset 45 points to unit [gone] of
    this repository, whose graph is not in the store; [describe] returns
    the error of the failed open and starts no remote request. *)
Lemma describe_local_load_failure_counterexample :
  let run := APIDescribeCmd_Execute E0 (describeAt 45) fresh in
  let target := ".srclib-cache/c0/gone/PipPackage.graph.json" in
  scanUnits E0 (fs afterBuild) store repo "a.py" 45 [unitA; unitB] [] =
    (Ok (Some {| graphIx := 0; refIx := 3 |}), [graphA]) /\
  DefRepo (defaultDefRepo repo refGone) = URI repo /\
  graphFileOf E0 store repo
    {| Name := DefUnit refGone; Type_ := DefUnitType refGone; Files := [] |}
    = target /\
  fs_Open (fs afterBuild) target =
    Fail (ErrNotExist ("open " +:+ target +:+ ": no such file or directory")) /\
  fst (fst run) =
    Some (ErrNotExist ("open " +:+ target +:+ ": no such file or directory")) /\
  trace (snd (fst run)) = trace afterBuild.
Proof. vm_compute. repeat split; reflexivity. Qed.

(** Both manifests of [/r] list [a.py]; both units are returned. *)
Lemma getSourceUnitsWithFile_all_witness :
  getSourceUnitsWithFile E0 (mkFS builtFiles) store repo "a.py" =
  Ok [unitA; unitB].
Proof.
  refine (proj1
    (getSourceUnitsWithFile_all E0 (mkFS builtFiles) store repo "a.py"
       [unitA; unitB] _)).
  constructor; [loads_unit unitA|].
  constructor; [loads_unit unitB|]. constructor.
Defined.

(** Unit [A] lists [a.py] and [./a.py]; it is appended once. *)
Lemma unit_listed_once_witness :
  appendIfContains E0 unitA ["a.py"; "./a.py"] "a.py" [] = [unitA].
Proof.
  refine (proj1 (unit_listed_once E0 unitA ["a.py"; "./a.py"] "a.py" []) _).
  apply (bool_decide_eq_true_1 _). vm_compute. reflexivity.
Defined.

(** C4 fails on the code: with the manifest of [A] cut short the lookup
    fails although the manifest of [B] is intact and lists [a.py]; with
    the graph of [B] cut short [list] fails and encodes nothing, although
    the graph of [A] has refs of [a.py]. *)
Lemma malformed_artifact_not_skipped_counterexample :
  loadsUnit (mkFS badManifestFiles) unitFileB unitB /\
  containsFile EbadManifest "a.py" unitB /\
  getSourceUnitsWithFile EbadManifest (mkFS badManifestFiles) store repo "a.py" =
    Fail (errorString
            (unitFileA +:+ ": unexpected end of JSON input")) /\
  getSourceUnitsWithFile EbadManifest (mkFS badManifestFiles) store repo "a.py"
    <> Ok [unitB] /\
  loadsGraph (mkFS badGraphFiles) graphFileA graphA /\
  fst (APIListCmd_Execute EbadGraph {| list_File := "/r/a.py" |} fresh) =
    Some (errorString (graphFileB +:+ ": unexpected end of JSON input")) /\
  trace (snd (APIListCmd_Execute EbadGraph {| list_File := "/r/a.py" |} fresh))
    = trace afterBuild.
Proof.
  split_and!.
  - loads_unit unitB.
  - apply (bool_decide_eq_true_1 _). vm_compute. reflexivity.
  - vm_compute. reflexivity.
  - vm_compute. discriminate.
  - loads_graph graphA.
  - vm_compute. reflexivity.
  - vm_compute. reflexivity.
Qed.

Lemma malformed_artifact_aborts_witness :
  getSourceUnitsWithFile EbadManifest (mkFS badManifestFiles) store repo "a.py" =
  Fail (Errorf unitFileA (errorString "unexpected end of JSON input")).
Proof.
  refine (proj1 (proj2
    (malformed_artifact_aborts EbadManifest (mkFS badManifestFiles) store repo))
    "a.py" [] [] unitFileA [unitFileB] _ _ _ _).
  - vm_compute. reflexivity.
  - constructor.
  - vm_compute. reflexivity.
Defined.

(** On a fresh checkout the commit path does not exist: configure, then
    make. *)
Lemma ensureBuild_steps_witness :
  exists evs,
    newEvents fresh (snd (ensureBuild E0 store repo fresh)) evs /\
    length evs = 2.
Proof.
  destruct (ensureBuild_steps E0 store repo fresh)
    as (evs & Hnew & _ & _ & _ & _ & Hmade).
  exists evs. split; [exact Hnew|].
  edestruct Hmade as (_ & _ & Hevs).
  - intros [_ [e He]]. vm_compute in He. discriminate He.
  - rewrite Hevs. reflexivity.
Defined.

(** C8 fails on the code: after [describe] at offset 15 the decoded record
    [refF] of the graph of [A] has its three empty def fields filled in. *)
Lemma describe_mutates_ref_counterexample :
  let mem := snd (APIDescribeCmd_Execute E0 (describeAt 15) fresh) in
  loadsGraph (fs afterBuild) graphFileA graphA /\
  Refs graphA !! 1 = Some refF /\
  getRef mem {| graphIx := 0; refIx := 1 |} =
    Some {| DefRepo := "example.com/r"; DefUnitType := "PipPackage";
            DefUnit := "A"; DefPath := "f";
            Ref_File := "a.py"; Start := 10; End_ := 20 |} /\
  mem !! 0 <> Some graphA.
Proof.
  split_and!.
  - loads_graph graphA.
  - reflexivity.
  - vm_compute. reflexivity.
  - vm_compute. discriminate.
Qed.

Lemma describe_memory_filled_witness :
  exists decoded,
    filled_memory decoded (snd (APIDescribeCmd_Execute E0 (describeAt 15) fresh)) /\
    Forall2 graph_preserved decoded
      (snd (APIDescribeCmd_Execute E0 (describeAt 15) fresh)).
Proof.
  destruct (describe_memory_filled E0 (describeAt 15) fresh)
    as [(decoded & oa & _ & Hfilled & _ & Hpreserved) _].
  exists decoded. split; [by exists oa | assumption].
Defined.

(** The service answers the examples but not the def: the ref at offset
    25 is resolved remotely, and the response has the examples and no
    def. *)
Lemma describe_goroutines_witness :
  let run := APIDescribeCmd_Execute EdefDown (describeAt 25) fresh in
  let spec := {| spec_Repo := "example.com/r"; spec_UnitType := "PipPackage";
                 spec_Unit := "A"; spec_Path := "g" |} in
  let answer := {| resp_Def := None; resp_Examples := [exampleF] |} in
  let sched := [ThMain; ThMain; ThExamples; ThGet; ThGet; ThExamples; ThMain] in
  fst (fst run) = None /\
  last (trace (snd (fst run))) = Some (EvEncodeResp answer) /\
  resp (conc_run EdefDown false spec sched (conc_init None)) = answer.
Proof.
  intros run spec answer sched. split_and!.
  - vm_compute. reflexivity.
  - vm_compute. reflexivity.
  - destruct (describe_goroutines EdefDown false spec None) as (Hall & _).
    destruct (Hall (conc_run EdefDown false spec sched (conc_init None)))
      as (_ & Hjoined & _).
    + apply conc_run_reachable.
    + destruct Hjoined as (_ & _ & Hresp & _); [reflexivity|].
      rewrite Hresp. reflexivity.
Defined.

End Witnesses.

(** ** The further properties at the repository [/r] *)

Section ExtraWitnesses.

Import Fixture Fixture2.

#[local] Ltac loads_graph g :=
  exists (graphJSON g); split; vm_compute; reflexivity.

#[local] Ltac not_covered :=
  repeat (first [ apply Forall_nil_2
                | apply Forall_cons_2;
                  [apply covers_false_iff; vm_compute; reflexivity|] ]).

Lemma openAndBuild_Edocs :
  openAndBuild Edocs "/r/./a.py" fresh =
  (Ok ("a.py", repo, store, [unitA; unitB]), afterDocs).
Proof. vm_compute. reflexivity. Qed.

Lemma openAndBuild_EbadGraph :
  openAndBuild EbadGraph "/r/./a.py" fresh =
  (Ok ("a.py", repo, store, [unitA; unitB]), afterBadGraph).
Proof. vm_compute. reflexivity. Qed.

(** [list] on [a.py]: four refs of unit [A], then the ref of unit [B]. *)
Lemma list_refs_in_order_witness :
  APIListCmd_Execute E0 {| list_File := "/r/./a.py" |} fresh =
  (None,
   emit (EvEncodeRefs [refF; refG; refGone; refForeign; refB]) afterBuild).
Proof.
  refine (proj1
    (list_refs_in_order E0 {| list_File := "/r/./a.py" |} fresh afterBuild
       "a.py" repo store [unitA; unitB] [graphA; graphB] _ _)).
  - exact openAndBuild_E0.
  - constructor; [loads_graph graphA|].
    constructor; [loads_graph graphB|]. constructor.
Defined.

(** [/tmp/x.py] is in no repository. *)
Lemma path_error_no_effect_witness :
  APIListCmd_Execute E0 {| list_File := "/tmp/x.py" |} fresh =
    (Some (errorString "not a repository"), fresh) /\
  APIDescribeCmd_Execute E0
    {| File_ := "/tmp/x.py"; StartByte := 3; NoExamples := false |} fresh =
    (Some (errorString "not a repository"), fresh, []).
Proof.
  destruct (path_error_no_effect E0 "/tmp/x.py" fresh
              (errorString "not a repository")) as [Hlist Hdescribe].
  - left. vm_compute. reflexivity.
  - split; [exact Hlist | apply Hdescribe].
Defined.

Lemma commands_build_first_witness :
  getSourceUnitsWithFile E0 (fs afterBuild) store repo "a.py" =
  Ok [unitA; unitB].
Proof.
  refine (proj2 (proj2 (proj2 (proj2
    (commands_build_first E0 "/r/./a.py" fresh afterBuild "a.py" repo store
       [unitA; unitB] _))))).
  exact openAndBuild_E0.
Defined.

(** The graph of [A] has the docs [old] and [new] for [f]: the response
    carries [new]. *)
Lemma describe_doc_last_wins_witness :
  exists resp sd,
    fst (fst (APIDescribeCmd_Execute Edocs (describeAt 15) fresh)) =
      Encode_Resp Edocs resp /\
    resp_Def resp = Some sd /\ DocHTML sd = "<p>new</p>".
Proof.
  destruct
    (describe_doc_last_wins Edocs (describeAt 15) fresh afterDocs "a.py" repo
       store [unitA; unitB] {| graphIx := 0; refIx := 1 |}
       [withRefs graphDocs
          [refOther; withDefUnitType (withDefUnit refF "A") "PipPackage";
           refG; refGone; refForeign]]
       (withDefUnitType (withDefUnit refF "A") "PipPackage")
       graphDocs [] defF [])
    as (resp & w' & mem' & sd & Hrun & _ & Hdef & _ & _ & _ & Hdoc).
  - exact openAndBuild_Edocs.
  - vm_compute. reflexivity.
  - reflexivity.
  - reflexivity.
  - loads_graph graphDocs.
  - reflexivity.
  - apply Forall_nil_2.
  - reflexivity.
  - exists resp, sd. split_and!.
    + by rewrite Hrun.
    + exact Hdef.
    + apply (Hdoc [docOld] docNew [docG]).
      * reflexivity.
      * reflexivity.
      * apply Forall_cons_2; [discriminate | apply Forall_nil_2].
Defined.

(** No ref of unit [A] covers offset 100, and the graph of [B] is cut
    short. *)
Lemma describe_graph_failure_witness :
  APIDescribeCmd_Execute EbadGraph (describeAt 100) fresh =
  (Some (Errorf graphFileB (errorString "unexpected end of JSON input")),
   afterBadGraph, [graphA]).
Proof.
  refine (proj2
    (describe_graph_failure EbadGraph (describeAt 100) fresh afterBadGraph
       "a.py" repo store [unitA] [graphA] unitB [] _ _ _)
    truncatedJSON (errorString "unexpected end of JSON input") _ _).
  - exact openAndBuild_EbadGraph.
  - constructor; [loads_graph graphA | constructor].
  - constructor; [not_covered | constructor].
  - vm_compute. reflexivity.
  - reflexivity.
Defined.

(** Both goroutines started, the def returned and not yet counted down. *)
Lemma waitgroup_counter_witness :
  let spec := {| spec_Repo := "example.com/r"; spec_UnitType := "PipPackage";
                 spec_Unit := "A"; spec_Path := "g" |} in
  let s := conc_run E0 false spec [ThMain; ThMain; ThGet] (conc_init None) in
  wg s = 2 /\ getTask s = Returned /\ 0 < wg s.
Proof.
  intros spec s.
  destruct (waitgroup_counter E0 false spec None s) as (Hwg & _ & Hpos & _).
  - apply conc_run_reachable.
  - split_and!; [by rewrite Hwg | reflexivity | apply Hpos; by left].
Defined.

(** On a parser that refuses [list], [init] ends the process after three
    attempts; on one that accepts everything it returns. *)
Example init_examples :
  fst (init parserOk []) = InitReturns /\
  reg_command <$> snd (init parserOk []) = ["api"; "describe"; "list"] /\
  reg_parent <$> snd (init parserOk []) =
    [{| cmd_id := 0 |}; {| cmd_id := 1 |}; {| cmd_id := 1 |}] /\
  fst (init parserNoList []) = InitFatal (errorString "cannot add command") /\
  reg_command <$> snd (init parserNoList []) = ["api"; "describe"; "list"].
Proof. vm_compute. repeat split; reflexivity. Qed.

(** The ref at offset 65 names [github.com/x/y]. *)
Lemma describe_foreign_remote_witness :
  fst (fst (APIDescribeCmd_Execute E0 (describeAt 65) fresh)) = None /\
  snd (APIDescribeCmd_Execute E0 (describeAt 65) fresh) =
    [withRefs graphA [refOther; refF; refG; refGone; refForeign]].
Proof.
  destruct
    (describe_foreign_remote E0 (describeAt 65) fresh afterBuild "a.py" repo
       store [unitA; unitB] {| graphIx := 0; refIx := 4 |}
       [withRefs graphA [refOther; refF; refG; refGone; refForeign]]
       refForeign) as [_ Hrun].
  - exact openAndBuild_E0.
  - vm_compute. reflexivity.
  - reflexivity.
  - discriminate.
  - discriminate.
  - rewrite Hrun. split; reflexivity.
Defined.

End ExtraWitnesses.
